(** * kissorm: struct/row mapping, chunked reads and partial updates

    A shallow embedding of [kiss_orm.go] (package [kissorm]) and the
    properties of its record/row codec, its descriptor cache, its chunked
    query loop and its facade operations. *)

From Stdlib Require Import ZArith Lia.
From stdpp Require Import base option list strings countable gmap.

Set Warnings "-register-all".
Local Open Scope string_scope.

(** ** The fragment of Go types and values the package reflects on *)

(** A field name as the runtime type information keeps it ([reflect]'s
    [name]): the identifier, and the bit the compiler sets when the
    identifier is exported, that is when its first character is an
    upper-case letter (of any script). *)
Record goName : Type := mkName {
  nameString : string;
  nameExported : bool;
}.

Global Instance goName_eq_dec : EqDecision goName.
Proof. solve_decision. Defined.

(** The name of a field whose identifier starts with an upper-case letter,
    and of one whose identifier does not. *)
Definition exported (s : string) : goName :=
  {| nameString := s; nameExported := true |}.
Definition unexported (s : string) : goName :=
  {| nameString := s; nameExported := false |}.

(** A struct field declaration: the Go field name, the value of
    [Tag.Get "gorm"] (the empty string when the field carries no such tag)
    and the declared type of the field. *)
Record fieldDecl (T : Type) : Type := mkField {
  fieldName : goName;
  fieldTag : string;
  fieldType : T;
}.
Arguments mkField {T} _ _ _.
Arguments fieldName {T} _.
Arguments fieldTag {T} _.
Arguments fieldType {T} _.

(** [reflect.Type], restricted to booleans, two integer types, strings,
    pointers, slices and named struct types.  A struct type is identified by
    its package-qualified name, as [%T] prints it, together with its
    declaration. *)
Inductive gotype : Type :=
  | TBool
  | TInt
  | TInt64
  | TString
  | TPtr (elem : gotype)
  | TSlice (elem : gotype)
  | TStruct (name : string) (fields : list (fieldDecl gotype)).

(** [reflect.Kind]. *)
Inductive kind : Type :=
  | Bool | Int | Int64 | String_ | Ptr | Slice | Struct.

Definition Kind (t : gotype) : kind :=
  match t with
  | TBool => Bool
  | TInt => Int
  | TInt64 => Int64
  | TString => String_
  | TPtr _ => Ptr
  | TSlice _ => Slice
  | TStruct _ _ => Struct
  end.

Global Instance kind_eq_dec : EqDecision kind.
Proof. solve_decision. Defined.

(** [t.Elem()] for pointer and slice types. *)
Definition Elem (t : gotype) : option gotype :=
  match t with
  | TPtr e | TSlice e => Some e
  | _ => None
  end.

(** [t.Name()]: the empty string for the unnamed pointer and slice types. *)
Definition Name (t : gotype) : string :=
  match t with
  | TBool => "bool"
  | TInt => "int"
  | TInt64 => "int64"
  | TString => "string"
  | TPtr _ | TSlice _ => ""
  | TStruct n _ => n
  end.

(** [t.String()], which is what the verbs [%T] and [%v] print. *)
Fixpoint typeString (t : gotype) : string :=
  match t with
  | TPtr e => "*" ++ typeString e
  | TSlice e => "[]" ++ typeString e
  | _ => Name t
  end.

(** Go values.  A pointer is either a typed nil or a reference to a value;
    the pointee is carried by value, and a function that writes through a
    pointer returns the pointer to the updated pointee. *)
Inductive value : Type :=
  | VBool (b : bool)
  | VInt (n : Z)
  | VInt64 (n : Z)
  | VString (s : string)
  | VNilPtr (elem : gotype)
  | VRef (target : value)
  | VSlice (elem : gotype) (items : list value)
  | VStruct (name : string) (decl : list (fieldDecl gotype)) (vals : list value).

(** An [interface{}]: [None] is the nil interface. *)
Definition iface : Type := option value.

(** [reflect.TypeOf]. *)
Fixpoint typeOf (v : value) : gotype :=
  match v with
  | VBool _ => TBool
  | VInt _ => TInt
  | VInt64 _ => TInt64
  | VString _ => TString
  | VNilPtr e => TPtr e
  | VRef x => TPtr (typeOf x)
  | VSlice e _ => TSlice e
  | VStruct n d _ => TStruct n d
  end.

(** [reflect.Zero]. *)
Fixpoint zeroValue (t : gotype) : value :=
  match t with
  | TBool => VBool false
  | TInt => VInt 0
  | TInt64 => VInt64 0
  | TString => VString ""
  | TPtr e => VNilPtr e
  | TSlice e => VSlice e []
  | TStruct n d =>
      VStruct n d
        ((fix zeros (fs : list (fieldDecl gotype)) : list value :=
            match fs with
            | [] => []
            | f :: fs' => zeroValue (fieldType f) :: zeros fs'
            end) d)
  end.

(** Equality of types is decidable; [reflect.Type] values are used as map
    keys and compared by the conversion rules. *)
Fixpoint gotype_eq_dec (a b : gotype) {struct a} : {a = b} + {a ≠ b}.
Proof.
  destruct a as [| | | |e1|e1|n1 fs1], b as [| | | |e2|e2|n2 fs2];
    try (left; reflexivity); try (right; discriminate).
  - destruct (gotype_eq_dec e1 e2); [left|right]; congruence.
  - destruct (gotype_eq_dec e1 e2); [left|right]; congruence.
  - destruct (decide (n1 = n2)); [|right; congruence].
    assert ({fs1 = fs2} + {fs1 ≠ fs2}) as [?|?]; [|left; congruence|right; congruence].
    clear n1 n2 e. revert fs2.
    induction fs1 as [|[fn1 ft1 fty1] fs1 IH]; intros [|[fn2 ft2 fty2] fs2];
      try (left; reflexivity); try (right; discriminate).
    destruct (decide (fn1 = fn2)); [|right; congruence].
    destruct (decide (ft1 = ft2)); [|right; congruence].
    destruct (gotype_eq_dec fty1 fty2); [|right; congruence].
    destruct (IH fs2); [left|right]; congruence.
Defined.

Global Instance gotype_EqDecision : EqDecision gotype := gotype_eq_dec.

(** Well-typed values: the fields of a struct value have the declared
    types, and the items of a slice have its element type. *)
Fixpoint wfValue (v : value) : bool :=
  match v with
  | VRef x => wfValue x
  | VSlice e items =>
      (fix all (l : list value) : bool :=
         match l with
         | [] => true
         | x :: l' => wfValue x && bool_decide (typeOf x = e) && all l'
         end) items
  | VStruct _ d vals =>
      (fix all (l : list value) (fs : list (fieldDecl gotype)) {struct l} : bool :=
         match l, fs with
         | [], [] => true
         | x :: l', f :: fs' =>
             wfValue x && bool_decide (typeOf x = fieldType f) && all l' fs'
         | _, _ => false
         end) vals d
  | _ => true
  end.

(** Types are countable, so that they can key a finite map the way
    [reflect.Type] keys [tagInfoCache]. *)
Fixpoint gotype_to_tree (t : gotype) : gen_tree string :=
  match t with
  | TBool => GenNode 0 []
  | TInt => GenNode 1 []
  | TInt64 => GenNode 2 []
  | TString => GenNode 3 []
  | TPtr e => GenNode 4 [gotype_to_tree e]
  | TSlice e => GenNode 5 [gotype_to_tree e]
  | TStruct n fs =>
      GenNode 6
        (GenLeaf n ::
         (fix go (fs : list (fieldDecl gotype)) : list (gen_tree string) :=
            match fs with
            | [] => []
            | f :: fs' =>
                GenNode (if nameExported (fieldName f) then 7 else 8)
                  [GenLeaf (nameString (fieldName f)); GenLeaf (fieldTag f);
                   gotype_to_tree (fieldType f)] :: go fs'
            end) fs)
  end.

Fixpoint gotype_of_tree (g : gen_tree string) : option gotype :=
  match g with
  | GenNode 0 [] => Some TBool
  | GenNode 1 [] => Some TInt
  | GenNode 2 [] => Some TInt64
  | GenNode 3 [] => Some TString
  | GenNode 4 [e] => TPtr <$> gotype_of_tree e
  | GenNode 5 [e] => TSlice <$> gotype_of_tree e
  | GenNode 6 (GenLeaf n :: l) =>
      TStruct n <$>
        (fix go (l : list (gen_tree string)) : option (list (fieldDecl gotype)) :=
           match l with
           | [] => Some []
           | GenNode 7 [GenLeaf fn; GenLeaf tag; ty] :: l' =>
               match gotype_of_tree ty, go l' with
               | Some t, Some fs => Some (mkField (exported fn) tag t :: fs)
               | _, _ => None
               end
           | GenNode 8 [GenLeaf fn; GenLeaf tag; ty] :: l' =>
               match gotype_of_tree ty, go l' with
               | Some t, Some fs => Some (mkField (unexported fn) tag t :: fs)
               | _, _ => None
               end
           | _ => None
           end) l
  | _ => None
  end.

Fixpoint gotype_of_to_tree (t : gotype) : gotype_of_tree (gotype_to_tree t) = Some t.
Proof.
  destruct t as [| | | |e|e|n fs]; simpl; try reflexivity.
  - by rewrite gotype_of_to_tree.
  - by rewrite gotype_of_to_tree.
  - match goal with |- TStruct n <$> ?x = _ => assert (x = Some fs) as -> end;
      [|reflexivity].
    induction fs as [|[[fn []] tag ty] fs IH]; simpl; [reflexivity| |];
      by rewrite gotype_of_to_tree, IH.
Qed.

Global Instance gotype_countable : Countable gotype :=
  inj_countable gotype_to_tree gotype_of_tree gotype_of_to_tree.

(** ** Conversion, as [reflect] decides and performs it on this fragment *)

(** [haveIdenticalUnderlyingType dst src false]: struct tags and the names of
    the two types themselves are ignored, but element and field types have
    to carry the same name ([haveIdenticalType]).  All types are taken to be
    declared in one package. *)
Fixpoint identUnder (T V : gotype) : bool :=
  match T, V with
  | TBool, TBool | TInt, TInt | TInt64, TInt64 | TString, TString => true
  | TPtr a, TPtr b | TSlice a, TSlice b =>
      String.eqb (Name a) (Name b) && identUnder a b
  | TStruct _ fs, TStruct _ gs =>
      (fix go (fs gs : list (fieldDecl gotype)) {struct fs} : bool :=
         match fs, gs with
         | [], [] => true
         | f :: fs', g :: gs' =>
             String.eqb (nameString (fieldName f)) (nameString (fieldName g))
             && String.eqb (Name (fieldType f)) (Name (fieldType g))
             && identUnder (fieldType f) (fieldType g)
             && go fs' gs'
         | _, _ => false
         end) fs gs
  | _, _ => false
  end.

(** [src.ConvertibleTo dst]: integers convert to integers and to strings;
    otherwise the underlying types have to be identical, or both types are
    pointers to types with identical underlying types. *)
Definition ConvertibleTo (src dst : gotype) : bool :=
  match Kind src, Kind dst with
  | (Int | Int64), (Int | Int64 | String_) => true
  | _, _ =>
      identUnder dst src
      || match dst, src with
         | TPtr d, TPtr s => identUnder d s
         | _, _ => false
         end
  end.

Definition byteString (bs : list Z) : string :=
  foldr (λ b s, String (Ascii.ascii_of_N (Z.to_N b)) s) "" bs.

(** [string(rune(r))]: the UTF-8 encoding of the code point, U+FFFD for an
    invalid one. *)
Definition encodeRune (r : Z) : string :=
  if (r <? 0)%Z || (0x10FFFF <? r)%Z || ((0xD800 <=? r)%Z && (r <=? 0xDFFF)%Z)
  then byteString [0xEF; 0xBF; 0xBD]%Z
  else if (r <? 0x80)%Z then byteString [r]
  else if (r <? 0x800)%Z then
    byteString [Z.lor 0xC0 (Z.shiftr r 6); Z.lor 0x80 (Z.land r 0x3F)]%Z
  else if (r <? 0x10000)%Z then
    byteString [Z.lor 0xE0 (Z.shiftr r 12);
                Z.lor 0x80 (Z.land (Z.shiftr r 6) 0x3F);
                Z.lor 0x80 (Z.land r 0x3F)]%Z
  else
    byteString [Z.lor 0xF0 (Z.shiftr r 18);
                Z.lor 0x80 (Z.land (Z.shiftr r 12) 0x3F);
                Z.lor 0x80 (Z.land (Z.shiftr r 6) 0x3F);
                Z.lor 0x80 (Z.land r 0x3F)]%Z.

(** [cvtIntString]: U+FFFD unless the integer fits a [rune] (an int32). *)
Definition intString (x : Z) : string :=
  if (-2147483648 <=? x)%Z && (x <=? 2147483647)%Z then encodeRune x
  else byteString [0xEF; 0xBF; 0xBD]%Z.

(** [cvtDirect]: the same value seen at the destination type. *)
Fixpoint retype (dst : gotype) (v : value) {struct dst} : value :=
  match dst, v with
  | TPtr e, VNilPtr _ => VNilPtr e
  | TPtr e, VRef x => VRef (retype e x)
  | TSlice e, VSlice _ items => VSlice e (map (retype e) items)
  | TStruct n d, VStruct _ _ vals =>
      VStruct n d
        ((fix go (d : list (fieldDecl gotype)) (vals : list value) {struct d}
            : list value :=
            match d, vals with
            | f :: d', x :: vals' => retype (fieldType f) x :: go d' vals'
            | _, _ => vals
            end) d vals)
  | _, _ => v
  end.

(** [v.Convert dst], for [dst] with [ConvertibleTo (typeOf v) dst]. Both
    integer types are 64 bits wide, so no integer conversion truncates. *)
Definition Convert (v : value) (dst : gotype) : value :=
  match v, Kind dst with
  | (VInt n | VInt64 n), Int => VInt n
  | (VInt n | VInt64 n), Int64 => VInt64 n
  | (VInt n | VInt64 n), String_ => VString (intString n)
  | _, _ => retype dst v
  end.

(** ** Errors, panics and results *)

(** The errors the package builds with [fmt.Errorf], kept as the format used
    together with its arguments in the order they are passed, and the errors
    handed back by the database collaborator or by a callback. *)
Inductive error : Type :=
  | ErrStructToMapInput
  | ErrFillStructNotPtr (entity : gotype)
  | ErrFillStructNotStruct (entity : gotype)
  | ErrFillStructConvert (colName : string) (arg2 : gotype) (arg3 : gotype)
  | ErrFillListNotPtr (slice : gotype)
  | ErrFillListNotSlice (slice : gotype)
  | ErrFillListNotStructs (slice : gotype)
  | ErrExternal (msg : string).

(** [err.Error()]. *)
Definition errorString (e : error) : string :=
  match e with
  | ErrStructToMapInput => "input must be a struct or struct pointer"
  | ErrFillStructNotPtr t =>
      "FillStructWith: expected input to be a pointer to struct but got "
      ++ typeString t
  | ErrFillStructNotStruct t =>
      "FillStructWith: expected input kind to be a struct but got "
      ++ typeString t
  | ErrFillStructConvert c a2 a3 =>
      "FillStructWith: cannot convert atribute " ++ c ++ " of type "
      ++ typeString a2 ++ " to type " ++ typeString a3
  | ErrFillListNotPtr t =>
      "FillListWith: expected input to be a pointer to struct but got "
      ++ typeString t
  | ErrFillListNotSlice t =>
      "FillListWith: expected input kind to be a slice but got "
      ++ typeString t
  | ErrFillListNotStructs t =>
      "FillListWith: expected input to be a slice of structs but got "
      ++ typeString t
  | ErrExternal msg => msg
  end.

(** The run-time panics of [reflect] that the package can provoke. *)
Inductive panic : Type :=
  | PanicInvalidValue      (* a method called on the zero reflect.Value *)
  | PanicFieldIndex        (* Field: index out of range *)
  | PanicUnexported        (* Interface or Set on an unexported field *)
  | PanicIllTyped.         (* a value that no Go program can build *)

Inductive result (A : Type) : Type :=
  | Ok (a : A)
  | Err (e : error)
  | Panic (p : panic).
Arguments Ok {A} _.
Arguments Err {A} _.
Arguments Panic {A} _.

(** A database row, [map[string]interface{}]. *)
Abbreviation row := (gmap string iface).

(** The order in which a [range] loop visits a row: any enumeration of its
    entries. *)
Definition rangeOrder (l : list (string * iface)) (m : row) : Prop :=
  l ≡ₚ map_to_list m.

(** ** The type descriptor cache *)

Record structInfo : Type := mkInfo {
  Names : gmap nat string;
  Index : gmap string nat;
}.

(** [info.Names[i]] and [info.Index[name]]: reading a Go map at a missing
    key yields the zero value. *)
Definition namesAt (info : structInfo) (i : nat) : string :=
  default "" (Names info !! i).
Definition indexAt (info : structInfo) (name : string) : nat :=
  default 0 (Index info !! name).

Definition structFields (t : gotype) : list (fieldDecl gotype) :=
  match t with
  | TStruct _ fs => fs
  | _ => []
  end.

Fixpoint getTagNamesFrom (i : nat) (fs : list (fieldDecl gotype))
    (info : structInfo) : structInfo :=
  match fs with
  | [] => info
  | f :: fs' =>
      let name := fieldTag f in
      if decide (name = "") then getTagNamesFrom (S i) fs' info
      else getTagNamesFrom (S i) fs'
             {| Names := <[i := name]> (Names info);
                Index := <[name := i]> (Index info) |}
  end.

(** [getTagNames], called on struct types only. *)
Definition getTagNames (t : gotype) : structInfo :=
  getTagNamesFrom 0 (structFields t) {| Names := ∅; Index := ∅ |}.

(** The calls the package makes on its collaborators. *)
Inductive event : Type :=
  | EvRaw (query : string) (params : list iface)
  | EvRows
  | EvNext
  | EvScanRows (idx : nat)
  | EvClose
  | EvCreate (table : string) (item : iface)
  | EvDelete (table : string) (id : iface)
  | EvUpdates (table : string) (item : iface) (m : row)
  | EvForEachChunk (chunk : list value).

(** The state the package runs in: the package variable [tagInfoCache], the
    log of the arguments [getTagNames] was called with (a probe, not part of
    the program), and the log of the calls made on the collaborators. *)
Record world : Type := mkWorld {
  tagInfoCache : gmap gotype structInfo;
  scanLog : list gotype;
  ioLog : list event;
}.

Definition initialWorld : world :=
  {| tagInfoCache := ∅; scanLog := []; ioLog := [] |}.

(** The block [info, found := tagInfoCache[t]; if !found { ... }] that
    [StructToMap], [FillStructWith] and [FillSliceWith] each contain. *)
Definition cachedTagInfo (t : gotype) (w : world) : structInfo * world :=
  match tagInfoCache w !! t with
  | Some info => (info, w)
  | None =>
      let info := getTagNames t in
      (info, {| tagInfoCache := <[t := info]> (tagInfoCache w);
                scanLog := (scanLog w ++ [t])%list;
                ioLog := ioLog w |})
  end.

(** ** The record/row codec *)

(** [Name.IsExported]: the export bit of the name. A field obtained through
    a name that does not have it is read-only for [reflect], which refuses
    [Interface] and [Set] on it with a panic. *)
Definition isExported (name : goName) : bool := nameExported name.

(** [v.Elem()] of the value behind an interface together with [t.Elem()]
    of its type, for a pointer; [None] stands for the zero [reflect.Value]
    that [Elem] returns on a nil pointer. *)
Definition derefValue (v : value) : gotype * option value :=
  match v with
  | VNilPtr e => (e, None)
  | VRef x => (typeOf x, Some x)
  | _ => (typeOf v, Some v)
  end.

(** The loop of [StructToMap] over the fields [i, i+1, ...]. *)
Fixpoint structToMapFrom (info : structInfo) (i : nat)
    (decl : list (fieldDecl gotype)) (vals : list value) (m : row)
    : result row :=
  match decl, vals with
  | f :: decl', field :: vals' =>
      match field with
      | VNilPtr _ => structToMapFrom info (S i) decl' vals' m
      | _ =>
          let field := match field with VRef x => x | _ => field end in
          if isExported (fieldName f)
          then structToMapFrom info (S i) decl' vals'
                 (<[namesAt info i := Some field]> m)
          else Panic PanicUnexported
      end
  | _, _ => Ok m
  end.

Definition StructToMap (obj : iface) (w : world) : result row * world :=
  match obj with
  | None => (Panic PanicInvalidValue, w)
  | Some v0 =>
      let '(t, v) :=
        if decide (Kind (typeOf v0) = Ptr) then derefValue v0
        else (typeOf v0, Some v0) in
      if decide (Kind t = Struct) then
        let '(info, w) := cachedTagInfo t w in
        match v with
        | None => (Panic PanicInvalidValue, w)
        | Some (VStruct _ decl vals) => (structToMapFrom info 0 decl vals ∅, w)
        | Some _ => (Panic PanicIllTyped, w)
        end
      else (Err ErrStructToMapInput, w)
  end.

(** The loop of [FillStructWith] over the entries of the row in the order
    [l]; it returns the fields as they are when the loop ends or aborts. *)
Fixpoint fillStructFrom (info : structInfo) (entityT : gotype)
    (decl : list (fieldDecl gotype)) (vals : list value)
    (l : list (string * iface)) : list value * result unit :=
  match l with
  | [] => (vals, Ok ())
  | (colName, attr) :: l' =>
      let i := indexAt info colName in
      match decl !! i, vals !! i with
      | Some f, Some _ =>
          match attr with
          | None => (vals, Panic PanicInvalidValue)
          | Some a =>
              if ConvertibleTo (typeOf a) (fieldType f) then
                if isExported (fieldName f)
                then fillStructFrom info entityT decl
                       (<[i := Convert a (fieldType f)]> vals) l'
                else (vals, Panic PanicUnexported)
              else (vals, Err (ErrFillStructConvert colName (fieldType f) entityT))
          end
      | _, _ => (vals, Panic PanicFieldIndex)
      end
  end.

(** [FillStructWith entity dbRow], the row being visited in the order
    [dbRow]. The first component is [entity] after the call. *)
Definition FillStructWith (entity : iface) (dbRow : list (string * iface))
    (w : world) : (iface * result unit) * world :=
  match entity with
  | None => ((entity, Panic PanicInvalidValue), w)
  | Some v0 =>
      let t0 := typeOf v0 in
      if decide (Kind t0 = Ptr) then
        let '(t, v) := derefValue v0 in
        if decide (Kind t = Struct) then
          let '(info, w) := cachedTagInfo t w in
          match v with
          | None =>
              match dbRow with
              | [] => ((entity, Ok ()), w)
              | _ :: _ => ((entity, Panic PanicInvalidValue), w)
              end
          | Some (VStruct n decl vals) =>
              let '(vals', r) := fillStructFrom info t0 decl vals dbRow in
              ((Some (VRef (VStruct n decl vals')), r), w)
          | Some _ => ((entity, Panic PanicIllTyped), w)
          end
        else ((entity, Err (ErrFillStructNotStruct t0)), w)
      else ((entity, Err (ErrFillStructNotPtr t0)), w)
  end.

(** [decodeAsSliceOfStructs]: the pointer itself, the struct type of the
    elements and whether the elements are pointers. *)
Definition decodeAsSliceOfStructs (slice : iface)
    : result (value * gotype * bool) :=
  match slice with
  | None => Panic PanicInvalidValue
  | Some slicePtrValue =>
      let slicePtrType := typeOf slicePtrValue in
      match slicePtrType with
      | TPtr t =>
          match t with
          | TSlice elemType =>
              let isPtr := bool_decide (Kind elemType = Ptr) in
              let elemType :=
                if isPtr then default elemType (Elem elemType) else elemType in
              if decide (Kind elemType = Struct)
              then Ok (slicePtrValue, elemType, isPtr)
              else Err (ErrFillListNotStructs slicePtrType)
          | _ => Err (ErrFillListNotSlice slicePtrType)
          end
      | _ => Err (ErrFillListNotPtr slicePtrType)
      end
  end.

(** The element that [QueryChunks] and [FillSliceWith] append to a slice
    that is too short: [reflect.New structType], dereferenced unless the
    slice holds pointers. *)
Definition newElem (structType : gotype) (isSliceOfPtrs : bool) : value :=
  if isSliceOfPtrs then VRef (zeroValue structType) else zeroValue structType.

(** The loop of [FillSliceWith] from position [idx] on. *)
Fixpoint fillSliceFrom (structType : gotype) (isSliceOfPtrs : bool)
    (idx : nat) (slice : list value) (dbRows : list (list (string * iface)))
    (w : world) : result (list value) * world :=
  match dbRows with
  | [] => (Ok slice, w)
  | dbRow :: dbRows' =>
      let slice :=
        if (List.length slice <=? idx)%nat
        then (slice ++ [newElem structType isSliceOfPtrs])%list else slice in
      match slice !! idx with
      | None => (Panic PanicFieldIndex, w)
      | Some x =>
          match FillStructWith (Some (VRef x)) dbRow w with
          | ((Some (VRef x'), Ok _), w) =>
              fillSliceFrom structType isSliceOfPtrs (S idx)
                (<[idx := x']> slice) dbRows' w
          | ((_, Ok _), w) => (Panic PanicIllTyped, w)
          | ((_, Err e), w) => (Err e, w)
          | ((_, Panic p), w) => (Panic p, w)
          end
      end
  end.

(** [FillSliceWith entities dbRows]; on success the result is [entities]
    after the call. *)
Definition FillSliceWith (entities : iface)
    (dbRows : list (list (string * iface))) (w : world)
    : result value * world :=
  match decodeAsSliceOfStructs entities with
  | Err e => (Err e, w)
  | Panic p => (Panic p, w)
  | Ok (sliceRef, structType, isSliceOfPtrs) =>
      let '(info, w) := cachedTagInfo structType w in
      match sliceRef with
      | VRef (VSlice e slice) =>
          match fillSliceFrom structType isSliceOfPtrs 0 slice dbRows w with
          | (Ok slice', w) => (Ok (VRef (VSlice e slice')), w)
          | (Err e, w) => (Err e, w)
          | (Panic p, w) => (Panic p, w)
          end
      | VNilPtr _ => (Panic PanicInvalidValue, w)
      | _ => (Panic PanicIllTyped, w)
      end
  end.

(** ** The facade and its collaborators *)

(** The database handle [*gorm.DB], seen through the answers it gives.  Each
    answer may depend on every call made so far. *)
Record DB : Type := mkDB {
  rawError : list event → string → list iface → option error;
  rowsResult : list event → error + list row;
  scanRows : list event → row → value → value * option error;
  createError : list event → string → iface → option error;
  deleteError : list event → string → iface → option error;
  updatesError : list event → string → iface → row → option error;
}.

Record Client : Type := mkClient {
  tableName : string;
  db : DB;
}.

(** Modelled from the spec: the declaration of [ChunkParser] is not part of
    [kiss_orm.go]; its fields are the ones [QueryChunks] reads, typed as the
    chunk descriptor of the specification (target sequence reference, chunk
    size, per-chunk callback) together with the query and its parameters.
    The callback takes no argument in Go; here it is given what it can
    observe, the calls made so far and the content of [Chunk]. *)
Record ChunkParser : Type := mkParser {
  Query : string;
  Params : list iface;
  Chunk : iface;
  ChunkSize : Z;
  ForEachChunk : list event → list value → option error;
}.

(** Computations of the package: they read and write the [world] and end
    with a value, a returned error or a panic. *)
Definition M (A : Type) : Type := world → result A * world.

Definition ret {A} (a : A) : M A := λ w, (Ok a, w).
Definition fail {A} (e : error) : M A := λ w, (Err e, w).
Definition bind {A B} (m : M A) (f : A → M B) : M B :=
  λ w, match m w with
       | (Ok a, w') => f a w'
       | (Err e, w') => (Err e, w')
       | (Panic p, w') => (Panic p, w')
       end.
Definition lift {A} (r : result A) : M A := λ w, (r, w).

Global Instance M_ret : MRet M := @ret.
Global Instance M_bind : MBind M := λ A B f m, bind m f.

(** A call on a collaborator: the answer is read off the log, then the call
    is logged. *)
Definition logCall (ev : event) (w : world) : world :=
  {| tagInfoCache := tagInfoCache w; scanLog := scanLog w;
     ioLog := (ioLog w ++ [ev])%list |}.

Definition call {A} (ev : event) (answer : list event → A) : M A :=
  λ w, (Ok (answer (ioLog w)), logCall ev w).

(** [if err != nil { return err }]. *)
Definition check (err : option error) : M unit :=
  match err with
  | Some e => fail e
  | None => ret ()
  end.

(** [defer f()] around [body]: [f] runs however [body] ends. *)
Definition deferring {A} (f : M unit) (body : M A) : M A :=
  λ w, let '(r, w') := body w in (r, snd (f w')).

(** [ChangeTable]. The receiver is passed by value: the first component is
    the receiver as the caller sees it once the method has returned, the
    second the client returned. *)
Definition ChangeTable (c : Client) (tableName : string) : Client * Client :=
  (c, {| db := db c; tableName := tableName |}).

Fixpoint insertEach (c : Client) (items : list iface) : M unit :=
  match items with
  | [] => ret ()
  | item :: items' =>
      err ← call (EvCreate (tableName c) item)
               (λ log, createError (db c) log (tableName c) item);
      check err;;
      insertEach c items'
  end.

Definition Insert (c : Client) (items : list iface) : M unit :=
  if decide (List.length items = 0%nat) then ret () else insertEach c items.

Fixpoint Delete (c : Client) (ids : list iface) : M unit :=
  match ids with
  | [] => ret ()
  | id :: ids' =>
      err ← call (EvDelete (tableName c) id)
               (λ log, deleteError (db c) log (tableName c) id);
      check err;;
      Delete c ids'
  end.

Fixpoint Update (c : Client) (items : list iface) : M unit :=
  match items with
  | [] => ret ()
  | item :: items' =>
      m ← (StructToMap item : M row);
      let m := delete "id" m in
      err ← call (EvUpdates (tableName c) item m)
               (λ log, updatesError (db c) log (tableName c) item m);
      check err;;
      Update c items'
  end.

(** [sliceRef.Elem().Set(s)] followed by [parser.ForEachChunk()]: the
    callback runs with [s] as the content of the chunk. *)
Definition runForEachChunk (parser : ChunkParser) (s : list value) : M unit :=
  err ← call (EvForEachChunk s) (λ log, ForEachChunk parser log s);
  check err.

(** The loop of [QueryChunks] and the final call that follows it, with
    [rows] the rows the cursor still has to yield.  [slice] is [None] when
    [sliceRef] is a nil pointer, whose [Elem] is the zero [reflect.Value]. *)
Fixpoint queryChunksFrom (c : Client) (parser : ChunkParser)
    (structType : gotype) (isSliceOfPtrs : bool)
    (slice : option (list value)) (idx : nat) (rows : list row) : M unit :=
  match rows with
  | [] =>
      call EvNext (λ _, ());;
      if decide (0 < idx)%nat then
        match slice with
        | Some s => runForEachChunk parser (take idx s)
        | None => lift (Panic PanicInvalidValue)
        end
      else ret ()
  | r :: rows' =>
      call EvNext (λ _, ());;
      match slice with
      | None => lift (Panic PanicInvalidValue)
      | Some s =>
          let s :=
            if (List.length s <=? idx)%nat
            then (s ++ [newElem structType isSliceOfPtrs])%list else s in
          match s !! idx with
          | None => lift (Panic PanicFieldIndex)
          | Some x =>
              '(x', err) ← call (EvScanRows idx) (λ log, scanRows (db c) log r x);
              let s := <[idx := x']> s in
              check err;;
              idx ← (if decide (Z.of_nat idx = (ChunkSize parser - 1)%Z)
                     then runForEachChunk parser s;; ret 0%nat
                     else ret idx);
              queryChunksFrom c parser structType isSliceOfPtrs
                (Some s) (S idx) rows'
          end
      end
  end.

Definition QueryChunks (c : Client) (parser : ChunkParser) : M unit :=
  err ← call (EvRaw (Query parser) (Params parser))
           (λ log, rawError (db c) log (Query parser) (Params parser));
  check err;;
  r ← call EvRows (rowsResult (db c));
  match r with
  | inl err => fail err
  | inr rows =>
      deferring (call EvClose (λ _, ()))
        ('(sliceRef, structType, isSliceOfPtrs) ←
           lift (decodeAsSliceOfStructs (Chunk parser));
         let slice :=
           match sliceRef with
           | VRef (VSlice _ s) => Some s
           | _ => None
           end in
         queryChunksFrom c parser structType isSliceOfPtrs slice 0 rows)
  end.

(** The buffers the callback was run with, in order. *)
Definition chunksSeen (log : list event) : list (list value) :=
  omap (λ ev, match ev with EvForEachChunk s => Some s | _ => None end) log.

(** The calls made on the database: every logged call but the callback's. *)
Definition isDbCall (ev : event) : bool :=
  match ev with
  | EvForEachChunk _ => false
  | _ => true
  end.

Definition dbCalls (log : list event) : list event := List.filter isDbCall log.

(** ** What the statements observe *)

(** The lengths of the buffers the callback of [QueryChunks] is run with,
    from the initial state. *)
Definition chunkLengths (c : Client) (parser : ChunkParser) : list nat :=
  List.length <$> chunksSeen (ioLog (QueryChunks c parser initialWorld).2).

(** A call of one of the three functions that look a descriptor up. *)
Inductive pkgCall : Type :=
  | CallStructToMap (obj : iface)
  | CallFillStructWith (entity : iface) (dbRow : list (string * iface))
  | CallFillSliceWith (entities : iface) (dbRows : list (list (string * iface))).

(** The world a call leaves behind, and the world after a sequence of
    calls made one after the other. *)
Definition runCall (k : pkgCall) (w : world) : world :=
  match k with
  | CallStructToMap obj => (StructToMap obj w).2
  | CallFillStructWith entity dbRow => (FillStructWith entity dbRow w).2
  | CallFillSliceWith entities dbRows => (FillSliceWith entities dbRows w).2
  end.

Definition runCalls (ks : list pkgCall) (w : world) : world :=
  foldl (λ w k, runCall k w) w ks.

(** Every cached descriptor is the one [getTagNames] computes. *)
Definition cacheOk (w : world) : Prop :=
  ∀ t info, tagInfoCache w !! t = Some info → info = getTagNames t.

(** The properties of the world that a cache lookup preserves. *)
Definition stable (P : world → Prop) : Prop :=
  ∀ t w, P w → P (cachedTagInfo t w).2.

(** The cache holds the descriptors [getTagNames] computes, and exactly
    the types of the scan log, each logged once. *)
Definition cacheInv (w : world) : Prop :=
  cacheOk w
  ∧ NoDup (scanLog w)
  ∧ ∀ t, t ∈ scanLog w → is_Some (tagInfoCache w !! t).

(** ** Shapes *)

(** The shapes the package asks of its arguments: a struct or a pointer to
    one ([StructToMap]), a pointer to a struct ([FillStructWith]), a pointer
    to a slice of structs or of pointers to structs ([FillSliceWith] and the
    [Chunk] of [QueryChunks]). *)
Definition isStructOrStructPtr (t : gotype) : bool :=
  match t with
  | TStruct _ _ | TPtr (TStruct _ _) => true
  | _ => false
  end.

Definition isStructPtr (t : gotype) : bool :=
  match t with
  | TPtr (TStruct _ _) => true
  | _ => false
  end.

Definition isSliceOfStructsPtr (t : gotype) : bool :=
  match t with
  | TPtr (TSlice (TStruct _ _)) | TPtr (TSlice (TPtr (TStruct _ _))) => true
  | _ => false
  end.

(** The errors that report an argument of the wrong shape. *)
Definition isShapeError (e : error) : bool :=
  match e with
  | ErrStructToMapInput
  | ErrFillStructNotPtr _ | ErrFillStructNotStruct _
  | ErrFillListNotPtr _ | ErrFillListNotSlice _ | ErrFillListNotStructs _ => true
  | ErrFillStructConvert _ _ _ | ErrExternal _ => false
  end.

(** ** Predicates on records, rows and collaborators *)

(** An [Updates] call whose row has no [id] key. *)
Definition updateWithoutId (ev : event) : Prop :=
  match ev with
  | EvUpdates _ _ m => m !! "id" = None
  | _ => False
  end.

(** The entries of the row that encodes a record none of whose fields is a
    pointer: the column of each field with its value. *)
Fixpoint encodedPairs (decl : list (fieldDecl gotype)) (vals : list value)
    : list (string * iface) :=
  match decl, vals with
  | f :: decl', v :: vals' => (fieldTag f, Some v) :: encodedPairs decl' vals'
  | _, _ => []
  end.

(** A field that round-trips: exported, tagged, not of pointer type. *)
Definition plainField (f : fieldDecl gotype) : Prop :=
  isExported (fieldName f) = true ∧ fieldTag f ≠ "" ∧ Kind (fieldType f) ≠ Ptr.

(** A database and a callback that never return an error. *)
Definition neverFails (c : Client) (parser : ChunkParser) : Prop :=
  (∀ log q ps, rawError (db c) log q ps = None)
  ∧ (∀ log r x, (scanRows (db c) log r x).2 = None)
  ∧ (∀ log s, ForEachChunk parser log s = None).

(** ** Reading records, rows and logs *)

(** A nil pointer: the field [StructToMap] leaves out. *)
Definition isNilPtr (v : value) : bool :=
  match v with VNilPtr _ => true | _ => false end.

(** The value [StructToMap] files for a field: what a pointer points to,
    the field itself otherwise. *)
Definition derefField (v : value) : value :=
  match v with VRef x => x | _ => v end.

(** A row entry the decode accepts for a record: its column tags an
    exported field and its value converts to the type of that field. *)
Definition decodable (decl : list (fieldDecl gotype)) (c : string) (a : iface)
    : Prop :=
  ∃ i f v, a = Some v ∧ decl !! i = Some f ∧ fieldTag f = c ∧ c ≠ ""
           ∧ ConvertibleTo (typeOf v) (fieldType f) = true
           ∧ isExported (fieldName f) = true.

(** What a field holds after the decode of row [m]. *)
Definition decodedField (m : row) (f : fieldDecl gotype) (old : option value)
    : option value :=
  match m !! fieldTag f with
  | Some (Some v) => Some (Convert v (fieldType f))
  | _ => old
  end.

(** The world after the calls [evs] have been logged, one after the other. *)
Definition logCalls (evs : list event) (w : world) : world :=
  {| tagInfoCache := tagInfoCache w; scanLog := scanLog w;
     ioLog := (ioLog w ++ evs)%list |}.

(** The [Updates] call [Update] makes for an item that encodes to [m]. *)
Definition updateCallFor (c : Client) (item : iface) (ev : event) : Prop :=
  ∃ m, (StructToMap item initialWorld).1 = Ok m
       ∧ ev = EvUpdates (tableName c) item (delete "id" m).

(** The answer of the database to a logged [Updates] call. *)
Definition updatesAnswer (c : Client) (log : list event) (ev : event)
    : option error :=
  match ev with
  | EvUpdates table item m => updatesError (db c) log table item m
  | _ => None
  end.

(** The answer of the database to the [Create] call for [item], the item
    at position [j] of [items], when the items before it have been sent
    from the world [w]; and the same for a [Delete] call. *)
Definition createAnswer (c : Client) (w : world) (items : list iface)
    (j : nat) (item : iface) : option error :=
  createError (db c)
    (ioLog w ++ (EvCreate (tableName c) <$> take j items))%list
    (tableName c) item.

Definition deleteAnswer (c : Client) (w : world) (ids : list iface)
    (j : nat) (id : iface) : option error :=
  deleteError (db c)
    (ioLog w ++ (EvDelete (tableName c) <$> take j ids))%list
    (tableName c) id.

(** The calls the loop of [QueryChunks] makes. *)
Definition isLoopCall (ev : event) : Prop :=
  match ev with
  | EvNext | EvScanRows _ | EvForEachChunk _ => True
  | _ => False
  end.

(** The slice the loops of [QueryChunks] and [FillSliceWith] work on once
    they have made room for position [idx]: a new element is appended when
    the slice is not longer than [idx]. *)
Definition withRoom (structType : gotype) (isSliceOfPtrs : bool)
    (s : list value) (idx : nat) : list value :=
  if (length s <=? idx)%nat
  then (s ++ [newElem structType isSliceOfPtrs])%list else s.

(** A call of [ScanRows]. *)
Definition isScanCall (ev : event) : bool :=
  match ev with EvScanRows _ => true | _ => false end.

(** The number of rows handed to [ScanRows]. *)
Definition rowsScanned (log : list event) : nat :=
  length (List.filter isScanCall log).

(** The number of rows read before a callback that fails is first run: a
    full chunk when the cursor yields one, every row otherwise. *)
Definition firstChunk (chunkSize : Z) (n : nat) : nat :=
  if decide (0 < chunkSize ≤ Z.of_nat n)%Z then Z.to_nat chunkSize else n.

(** ** Sample record types and collaborators *)

(** [type User struct { ID int `gorm:"id"`; Name string `gorm:"name"`;
    Email *string `gorm:"email"` }]. *)
Definition User : gotype :=
  TStruct "main.User"
    [mkField (exported "ID") "id" TInt;
     mkField (exported "Name") "name" TString;
     mkField (exported "Email") "email" (TPtr TString)].

Definition mkUser (id : Z) (name : string) (email : value) : value :=
  VStruct "main.User" (structFields User) [VInt id; VString name; email].

(** [User{1, "Ann", &"ann@example.org"}], with every field present. *)
Definition annWithEmail : value :=
  mkUser 1 "Ann" (VRef (VString "ann@example.org")).

(** [type Account struct { UserID int `gorm:"user_id"`;
    Name string `gorm:"name"` }]: a record whose identifier column is not
    called [id]. *)
Definition Account : gotype :=
  TStruct "main.Account"
    [mkField (exported "UserID") "user_id" TInt;
     mkField (exported "Name") "name" TString].

Definition mkAccount (id : Z) (name : string) : value :=
  VStruct "main.Account" (structFields Account) [VInt id; VString name].

(** [type Shared struct { A *int `gorm:"x"`; B int `gorm:"x"` }]: two fields
    filed under one column. *)
Definition Shared : gotype :=
  TStruct "main.Shared"
    [mkField (exported "A") "x" (TPtr TInt); mkField (exported "B") "x" TInt].

(** [Shared{A: nil, B: 5}]. *)
Definition sharedValue : value :=
  VStruct "main.Shared" (structFields Shared) [VNilPtr TInt; VInt 5].

(** [type Mixed struct { ID int `gorm:"id"`; Age int }]: the second field
    carries no tag. *)
Definition Mixed : gotype :=
  TStruct "main.Mixed"
    [mkField (exported "ID") "id" TInt; mkField (exported "Age") "" TInt].

(** [type Point struct { X int `gorm:"x"`; Y int `gorm:"y"` }] and the
    point [{3, 4}]. *)
Definition Point : gotype :=
  TStruct "main.Point"
    [mkField (exported "X") "x" TInt; mkField (exported "Y") "y" TInt].

Definition point34 : value := VStruct "main.Point" (structFields Point) [VInt 3; VInt 4].

(** A database that answers every call without an error; its cursor yields
    [rows] and [ScanRows] stores [scan r x] in the destination [x]. *)
Definition quietDB (rows : list row) (scan : row → value → value) : DB :=
  {| rawError := λ _ _ _, None;
     rowsResult := λ _, inr rows;
     scanRows := λ _ r x, (scan r x, None);
     createError := λ _ _ _, None;
     deleteError := λ _ _ _, None;
     updatesError := λ _ _ _ _, None |}.

(** A chunk descriptor over an empty [[]User] whose callback never fails. *)
Definition userChunks (chunkSize : Z) : ChunkParser :=
  {| Query := "SELECT * FROM users"; Params := [];
     Chunk := Some (VRef (VSlice User []));
     ChunkSize := chunkSize;
     ForEachChunk := λ _ _, None |}.

(** A chunk descriptor whose [Chunk] is the integer 3. *)
Definition intChunk : ChunkParser :=
  {| Query := "SELECT * FROM users"; Params := [];
     Chunk := Some (VInt 3);
     ChunkSize := 3;
     ForEachChunk := λ _ _, None |}.

(** [type Hidden struct { ID int `gorm:"id"`; secret string `gorm:"secret"` }]
    and the value [Hidden{1, "x"}]: the second field is not exported. *)
Definition Hidden : gotype :=
  TStruct "main.Hidden"
    [mkField (exported "ID") "id" TInt;
     mkField (unexported "secret") "secret" TString].

(** [Hidden{1, "x"}]. *)
Definition hiddenValue : value :=
  VStruct "main.Hidden" (structFields Hidden) [VInt 1; VString "x"].

(** The row [{"id": 1, "name": "Ann"}]. *)
Definition annRow : row :=
  {["id" := Some (VInt 1); "name" := Some (VString "Ann")]}.

(** A chunk descriptor over an empty [[]User] whose callback always fails. *)
Definition failingChunks (chunkSize : Z) (e : error) : ChunkParser :=
  {| Query := "SELECT * FROM users"; Params := [];
     Chunk := Some (VRef (VSlice User []));
     ChunkSize := chunkSize;
     ForEachChunk := λ _ _, Some e |}.

(** A chunk descriptor over a [[]User] that already holds [items]. *)
Definition presizedChunks (chunkSize : Z) (items : list value) : ChunkParser :=
  {| Query := "SELECT * FROM users"; Params := [];
     Chunk := Some (VRef (VSlice User items));
     ChunkSize := chunkSize;
     ForEachChunk := λ _ _, None |}.

(** * Properties *)

(** ** Induction on types and values *)

Section nested_induction.
Variable P : gotype → Prop.
Hypothesis Hbool : P TBool.
Hypothesis Hint : P TInt.
Hypothesis Hint64 : P TInt64.
Hypothesis Hstring : P TString.
Hypothesis Hptr : ∀ e, P e → P (TPtr e).
Hypothesis Hslice : ∀ e, P e → P (TSlice e).
Hypothesis Hstruct :
  ∀ n fs, Forall (λ f, P (fieldType f)) fs → P (TStruct n fs).

Fixpoint gotype_nested_ind (t : gotype) : P t :=
  match t with
  | TBool => Hbool
  | TInt => Hint
  | TInt64 => Hint64
  | TString => Hstring
  | TPtr e => Hptr e (gotype_nested_ind e)
  | TSlice e => Hslice e (gotype_nested_ind e)
  | TStruct n fs =>
      Hstruct n fs
        ((fix go (fs : list (fieldDecl gotype))
            : Forall (λ f, P (fieldType f)) fs :=
            match fs with
            | [] => Forall_nil_2 _
            | f :: fs' =>
                Forall_cons_2 _ f fs' (gotype_nested_ind (fieldType f)) (go fs')
            end) fs)
  end.
End nested_induction.

Section value_induction.
Variable P : value → Prop.
Hypothesis Hbool : ∀ b, P (VBool b).
Hypothesis Hint : ∀ n, P (VInt n).
Hypothesis Hint64 : ∀ n, P (VInt64 n).
Hypothesis Hstring : ∀ s, P (VString s).
Hypothesis Hnil : ∀ e, P (VNilPtr e).
Hypothesis Href : ∀ x, P x → P (VRef x).
Hypothesis Hslice : ∀ e items, Forall P items → P (VSlice e items).
Hypothesis Hstruct : ∀ n d vals, Forall P vals → P (VStruct n d vals).

Fixpoint value_nested_ind (v : value) : P v :=
  let all :=
    fix go (l : list value) : Forall P l :=
      match l with
      | [] => Forall_nil_2 _
      | x :: l' => Forall_cons_2 _ x l' (value_nested_ind x) (go l')
      end in
  match v with
  | VBool b => Hbool b
  | VInt n => Hint n
  | VInt64 n => Hint64 n
  | VString s => Hstring s
  | VNilPtr e => Hnil e
  | VRef x => Href x (value_nested_ind x)
  | VSlice e items => Hslice e items (all items)
  | VStruct n d vals => Hstruct n d vals (all vals)
  end.
End value_induction.

(** ** Conversion to the value's own type *)

Lemma identUnder_refl (t : gotype) : identUnder t t = true.
Proof.
  induction t as [| | | |e IH|e IH|n fs IH] using gotype_nested_ind;
    simpl; try reflexivity.
  - by rewrite String.eqb_refl, IH.
  - by rewrite String.eqb_refl, IH.
  - induction IH as [|f fs Hf _ IHfs]; [reflexivity|].
    by rewrite !String.eqb_refl, Hf, IHfs.
Qed.

Lemma ConvertibleTo_refl (t : gotype) : ConvertibleTo t t = true.
Proof.
  unfold ConvertibleTo.
  destruct t; try reflexivity; cbn [Kind]; by rewrite identUnder_refl.
Qed.

Lemma wfValue_struct_inv n d vals :
  wfValue (VStruct n d vals) = true →
  Forall2 (λ x f, wfValue x = true ∧ typeOf x = fieldType f) vals d.
Proof.
  simpl. revert d.
  induction vals as [|x vals IH]; intros [|f d] H; try discriminate; [constructor|].
  apply andb_true_iff in H as [H Hrest]. apply andb_true_iff in H as [Hx Hty].
  apply bool_decide_eq_true in Hty. constructor; [done|]. by apply IH.
Qed.

Lemma wfValue_slice_inv e items :
  wfValue (VSlice e items) = true →
  Forall (λ x, wfValue x = true ∧ typeOf x = e) items.
Proof.
  simpl. induction items as [|x items IH]; intros H; [constructor|].
  apply andb_true_iff in H as [H Hrest]. apply andb_true_iff in H as [Hx Hty].
  apply bool_decide_eq_true in Hty. constructor; [done|]. by apply IH.
Qed.

Lemma retype_typeOf (v : value) : wfValue v = true → retype (typeOf v) v = v.
Proof.
  induction v as [| | | | |x IH|e items IH|n d vals IH] using value_nested_ind;
    intros Hwf; try reflexivity.
  - simpl in *. by rewrite IH.
  - apply wfValue_slice_inv in Hwf. simpl. f_equal.
    induction IH as [|x items Hx _ IHitems]; [reflexivity|].
    inversion Hwf as [|? ? [Hwx Htx] Hrest]; subst. simpl.
    by rewrite Hx, IHitems.
  - apply wfValue_struct_inv in Hwf. simpl. f_equal.
    revert d Hwf. induction IH as [|x vals Hx _ IHvals]; intros d Hwf.
    + by inversion Hwf.
    + inversion Hwf as [|? f ? d' [Hwx Htx] Hrest]; subst.
      rewrite <-Htx, Hx by done. f_equal. by apply IHvals.
Qed.

Lemma Convert_typeOf (v : value) : wfValue v = true → Convert v (typeOf v) = v.
Proof.
  intros Hwf. unfold Convert.
  destruct v; try reflexivity; by apply retype_typeOf.
Qed.

(** ** The descriptor that [getTagNames] builds *)

Lemma getTagNamesFrom_Names fs k info j :
  Names (getTagNamesFrom k fs info) !! j =
    match (if decide (k ≤ j)%nat then fs !! (j - k)%nat else None) with
    | Some f =>
        if decide (fieldTag f = "") then Names info !! j else Some (fieldTag f)
    | None => Names info !! j
    end.
Proof.
  revert k info. induction fs as [|f fs IH]; intros k info; simpl.
  { by destruct (decide _). }
  destruct (decide (k ≤ j)%nat) as [Hkj|Hkj].
  - destruct (decide (j = k)) as [->|Hne].
    + replace (k - k)%nat with 0%nat by lia. simpl.
      destruct (decide (fieldTag f = "")); rewrite IH;
        (destruct (decide (S k ≤ k)%nat); [lia|]); simpl; [done|].
      by rewrite lookup_insert_eq.
    + replace (j - k)%nat with (S (j - S k)) by lia. simpl.
      destruct (decide (fieldTag f = "")); rewrite IH;
        (destruct (decide (S k ≤ j)%nat); [|lia]); simpl; [done|].
      rewrite lookup_insert_ne by done. done.
  - destruct (decide (fieldTag f = "")); rewrite IH;
      (destruct (decide (S k ≤ j)%nat); [lia|]); simpl; [done|].
    rewrite lookup_insert_ne by lia. done.
Qed.

(** The column under which field [i] is filed is its tag, tagged or not. *)
Lemma namesAt_getTagNames n decl i :
  namesAt (getTagNames (TStruct n decl)) i =
    match decl !! i with Some f => fieldTag f | None => "" end.
Proof.
  unfold namesAt, getTagNames. simpl. rewrite getTagNamesFrom_Names.
  destruct (decide (0 ≤ i)%nat); [|lia].
  replace (i - 0)%nat with i by lia.
  destruct (decl !! i) as [f|]; [|done].
  destruct (decide (fieldTag f = "")) as [Heq|]; [|done].
  by rewrite Heq.
Qed.

Lemma getTagNamesFrom_Index_notin fs k info c :
  c ∉ fieldTag <$> fs →
  Index (getTagNamesFrom k fs info) !! c = Index info !! c.
Proof.
  revert k info. induction fs as [|f fs IH]; intros k info Hc; simpl; [done|].
  rewrite fmap_cons in Hc. apply not_elem_of_cons in Hc as [Hne Hc].
  destruct (decide (fieldTag f = "")); rewrite IH by done; [done|].
  simpl. by rewrite lookup_insert_ne.
Qed.

Lemma getTagNamesFrom_Index_in fs k info i f :
  NoDup (fieldTag <$> fs) → fs !! i = Some f → fieldTag f ≠ "" →
  Index (getTagNamesFrom k fs info) !! fieldTag f = Some (k + i)%nat.
Proof.
  revert k info i. induction fs as [|g fs IH]; intros k info i Hnd Hi Hne; [done|].
  rewrite fmap_cons in Hnd. apply NoDup_cons in Hnd as [Hg Hnd].
  destruct i as [|i]; simpl in *.
  - simplify_eq. destruct (decide _); [done|].
    rewrite getTagNamesFrom_Index_notin by done. simpl.
    rewrite lookup_insert_eq. f_equal. lia.
  - destruct (decide (fieldTag g = ""));
      rewrite (IH _ _ i) by done; f_equal; lia.
Qed.

(** A column that tags no field is filed nowhere: [info.Index] has no entry
    for it, and reading it yields position 0. *)
Lemma indexAt_unknown n decl c :
  c ∉ fieldTag <$> decl → indexAt (getTagNames (TStruct n decl)) c = 0%nat.
Proof.
  intros Hc. unfold indexAt, getTagNames. simpl.
  by rewrite getTagNamesFrom_Index_notin.
Qed.

Lemma indexAt_known n decl i f :
  NoDup (fieldTag <$> decl) → decl !! i = Some f → fieldTag f ≠ "" →
  indexAt (getTagNames (TStruct n decl)) (fieldTag f) = i.
Proof.
  intros Hnd Hi Hne. unfold indexAt, getTagNames. simpl.
  by rewrite (getTagNamesFrom_Index_in _ _ _ i).
Qed.

(** ** The cache *)

Lemma cacheOk_initial : cacheOk initialWorld.
Proof. intros t info. simpl. by rewrite lookup_empty. Qed.

Lemma cachedTagInfo_fst t w : cacheOk w → (cachedTagInfo t w).1 = getTagNames t.
Proof.
  intros Hok. unfold cachedTagInfo.
  destruct (tagInfoCache w !! t) as [info|] eqn:Hl; simpl; [|done].
  by apply Hok.
Qed.

Lemma cachedTagInfo_cacheOk t w : cacheOk w → cacheOk (cachedTagInfo t w).2.
Proof.
  intros Hok. unfold cachedTagInfo.
  destruct (tagInfoCache w !! t) as [info|] eqn:Hl; simpl; [done|].
  intros t' info'. simpl. rewrite lookup_insert.
  destruct (decide (t = t')) as [->|]; [by intros [= <-]|]. apply Hok.
Qed.

Lemma cachedTagInfo_cached t w :
  cacheOk w → tagInfoCache (cachedTagInfo t w).2 !! t = Some (getTagNames t).
Proof.
  intros Hok. unfold cachedTagInfo.
  destruct (tagInfoCache w !! t) as [info|] eqn:Hl; simpl.
  - rewrite Hl. f_equal. by apply Hok.
  - by rewrite lookup_insert_eq.
Qed.

Lemma cachedTagInfo_ioLog t w : ioLog (cachedTagInfo t w).2 = ioLog w.
Proof. unfold cachedTagInfo. by destruct (tagInfoCache w !! t). Qed.

Global Arguments cachedTagInfo : simpl never.
Global Arguments StructToMap : simpl never.
Global Arguments FillStructWith : simpl never.

(** A property of the world that the cache lookup preserves is preserved by
    the three functions that go through the cache. *)
Lemma StructToMap_stable P obj w :
  stable P → P w → P (StructToMap obj w).2.
Proof.
  intros HP Hw. unfold StructToMap.
  destruct obj as [v0|]; [|done].
  destruct (if decide (Kind (typeOf v0) = Ptr) then derefValue v0
            else (typeOf v0, Some v0)) as [t v].
  destruct (decide (Kind t = Struct)); [|done].
  specialize (HP t w Hw). destruct (cachedTagInfo t w) as [info w'].
  by destruct v as [[]|].
Qed.

Lemma FillStructWith_stable P entity dbRow w :
  stable P → P w → P (FillStructWith entity dbRow w).2.
Proof.
  intros HP Hw. unfold FillStructWith.
  destruct entity as [v0|]; [|done].
  destruct (decide (Kind (typeOf v0) = Ptr)); [|done].
  destruct (derefValue v0) as [t v].
  destruct (decide (Kind t = Struct)); [|done].
  specialize (HP t w Hw). destruct (cachedTagInfo t w) as [info w'].
  destruct v as [[]|]; try done.
  - by destruct (fillStructFrom _ _ _ _ _).
  - by destruct dbRow.
Qed.

Lemma fillSliceFrom_stable P structType isPtrs idx slice dbRows w :
  stable P → P w → P (fillSliceFrom structType isPtrs idx slice dbRows w).2.
Proof.
  intros HP. revert idx slice w.
  induction dbRows as [|dbRow dbRows IH]; intros idx slice w Hw; simpl; [done|].
  destruct (_ !! idx) as [x|]; [|exact Hw].
  pose proof (FillStructWith_stable P (Some (VRef x)) dbRow w HP Hw) as H.
  destruct (FillStructWith (Some (VRef x)) dbRow w) as [[e r] w'].
  simpl in H. destruct r; [|by destruct e as [[]|]..].
  destruct e as [[]|]; try exact H. by apply IH.
Qed.

Lemma FillSliceWith_stable P entities dbRows w :
  stable P → P w → P (FillSliceWith entities dbRows w).2.
Proof.
  intros HP Hw. unfold FillSliceWith.
  destruct (decodeAsSliceOfStructs entities) as [[[sliceRef t] isPtrs]| |]; [|done..].
  pose proof (HP t w Hw) as Hw'. destruct (cachedTagInfo t w) as [info w'].
  destruct sliceRef as [| | | | |[]| |]; try done.
  pose proof (fillSliceFrom_stable P t isPtrs 0 items dbRows w' HP Hw') as H.
  by destruct (fillSliceFrom _ _ _ _ _ _) as [[] ?].
Qed.

(** ** The facade *)

(** C9: [ChangeTable c n] returns a client bound to table [n] that shares
    the connection of [c], and leaves [c] as it was. *)
Theorem ChangeTable_new_client (c : Client) (n : string) :
  tableName (ChangeTable c n).2 = n
  ∧ db (ChangeTable c n).2 = db c
  ∧ (ChangeTable c n).1 = c.
Proof. by unfold ChangeTable. Qed.

(** [Insert] called with no item returns nil without a call. *)
Lemma Insert_empty (c : Client) (w : world) : Insert c [] w = (Ok (), w).
Proof. reflexivity. Qed.

(** C10: [Update] and [Delete] called with no item return nil and make no
    call at all: the world, and with it the log of calls, is unchanged. *)
Theorem Update_Delete_empty (c : Client) (w : world) :
  Update c [] w = (Ok (), w) ∧ Delete c [] w = (Ok (), w).
Proof. split; reflexivity. Qed.

(** ** The chunked query *)

(** With no row to yield the callback is never run. *)
Lemma QueryChunks_no_rows c parser w sliceRef structType isPtrs :
  rawError (db c) (ioLog w) (Query parser) (Params parser) = None →
  rowsResult (db c) (ioLog w ++ [EvRaw (Query parser) (Params parser)]) = inr [] →
  decodeAsSliceOfStructs (Chunk parser) = Ok (sliceRef, structType, isPtrs) →
  (QueryChunks c parser w).1 = Ok ()
  ∧ chunksSeen (ioLog (QueryChunks c parser w).2) = chunksSeen (ioLog w).
Proof.
  intros Hraw Hrows Hdec.
  unfold QueryChunks, mbind, M_bind, bind, call, check, deferring, lift. simpl.
  rewrite Hraw. simpl. rewrite Hrows. simpl. rewrite Hdec. simpl.
  split; [done|]. unfold chunksSeen. rewrite !omap_app. simpl.
  by rewrite !app_nil_r.
Qed.

(** The two equations of the loop when neither the database nor the
    callback fails: what it does once the cursor is exhausted, and what it
    does with the next row. *)
Lemma chunksSeen_logCall ev w :
  chunksSeen (ioLog (logCall ev w))
  = (chunksSeen (ioLog w) ++ match ev with EvForEachChunk s => [s] | _ => [] end)%list.
Proof. unfold chunksSeen, logCall. simpl. rewrite omap_app. by destruct ev. Qed.

Lemma queryChunksFrom_end c parser T p s idx w :
  neverFails c parser →
  queryChunksFrom c parser T p (Some s) idx [] w
  = (Ok (),
     if decide (0 < idx)%nat
     then logCall (EvForEachChunk (take idx s)) (logCall EvNext w)
     else logCall EvNext w).
Proof.
  intros (_ & _ & Hcb). cbn [queryChunksFrom].
  unfold mbind, M_bind, bind, call. cbn [fst snd].
  destruct (decide (0 < idx)%nat); [|done].
  unfold runForEachChunk, mbind, M_bind, bind, call. by rewrite Hcb.
Qed.

Lemma queryChunksFrom_step c parser T p s idx r rows w x :
  neverFails c parser →
  (if (length s <=? idx)%nat then (s ++ [newElem T p])%list else s) !! idx = Some x →
  queryChunksFrom c parser T p (Some s) idx (r :: rows) w
  = let s' :=
      <[idx := (scanRows (db c) (ioLog (logCall EvNext w)) r x).1]>
        (if (length s <=? idx)%nat then (s ++ [newElem T p])%list else s) in
    let w' := logCall (EvScanRows idx) (logCall EvNext w) in
    if decide (Z.of_nat idx = (ChunkSize parser - 1)%Z)
    then queryChunksFrom c parser T p (Some s') 1 rows
           (logCall (EvForEachChunk s') w')
    else queryChunksFrom c parser T p (Some s') (S idx) rows w'.
Proof.
  intros (_ & Hscan & Hcb) Hx. cbn [queryChunksFrom].
  unfold mbind, M_bind, bind. unfold call at 1. cbn [fst snd]. rewrite Hx.
  unfold call at 1. cbn [fst snd].
  pose proof (Hscan (ioLog (logCall EvNext w)) r x) as Herr.
  destruct (scanRows _ _ _ _) as [x' err]. simpl in Herr. subst err.
  cbn [check ret fst snd].
  destruct (decide _); [|done].
  unfold runForEachChunk, mbind, M_bind, bind, call. by rewrite Hcb.
Qed.

Lemma queryChunksFrom_last_chunk c parser T p rows :
  neverFails c parser →
  ∀ s idx w,
    length s = idx → rows ≠ [] →
    Z.of_nat (idx + length rows) = ChunkSize parser →
    ∃ w' b1 b2,
      queryChunksFrom c parser T p (Some s) idx rows w = (Ok (), w')
      ∧ chunksSeen (ioLog w') = (chunksSeen (ioLog w) ++ [b1; b2])%list
      ∧ length b1 = (idx + length rows)%nat ∧ length b2 = 1%nat.
Proof.
  intros Hquiet.
  induction rows as [|r rows IH]; intros s idx w Hlen Hne Hk; [done|].
  assert ((if (length s <=? idx)%nat then (s ++ [newElem T p])%list else s) !! idx
          = Some (newElem T p)) as Hx.
  { rewrite Hlen, Nat.leb_refl, lookup_app_r by lia.
    by rewrite Hlen, Nat.sub_diag. }
  rewrite (queryChunksFrom_step _ _ _ _ _ _ _ _ _ _ Hquiet Hx). cbn zeta.
  rewrite Hlen, Nat.leb_refl.
  set (s' := <[idx := _]> _).
  assert (length s' = S idx) as Hlen'.
  { unfold s'. rewrite length_insert, length_app. simpl. lia. }
  simpl in Hk.
  destruct rows as [|r' rows].
  - destruct (decide _) as [_|Hn]; [|simpl in *; lia].
    rewrite queryChunksFrom_end by done. simpl.
    eexists _, s', (take 1 s'). split; [done|].
    rewrite !chunksSeen_logCall. simpl. rewrite !app_nil_r, <-app_assoc.
    split; [done|]. split; [lia|].
    rewrite length_take. lia.
  - destruct (decide _) as [Hn|_]; [simpl in *; lia|].
    destruct (IH s' (S idx) (logCall (EvScanRows idx) (logCall EvNext w)))
      as (w' & b1 & b2 & Hrun & Hseen & Hb1 & Hb2); [done|done|simpl in *; lia|].
    exists w', b1, b2. split; [done|].
    rewrite Hseen, !chunksSeen_logCall, !app_nil_r.
    split; [done|]. split; [simpl in *; lia|done].
Qed.

(** [QueryChunks] once the query has run, the cursor is open and the chunk
    has the right shape: the loop, then the deferred [Close]. *)
Lemma QueryChunks_unfold c parser w rows sliceRef structType isPtrs :
  rawError (db c) (ioLog w) (Query parser) (Params parser) = None →
  rowsResult (db c) (ioLog (logCall (EvRaw (Query parser) (Params parser)) w))
    = inr rows →
  decodeAsSliceOfStructs (Chunk parser) = Ok (sliceRef, structType, isPtrs) →
  QueryChunks c parser w
  = let '(r, w') :=
      queryChunksFrom c parser structType isPtrs
        (match sliceRef with VRef (VSlice _ s) => Some s | _ => None end)
        0 rows
        (logCall EvRows (logCall (EvRaw (Query parser) (Params parser)) w)) in
    (r, logCall EvClose w').
Proof.
  intros Hraw Hrows Hdec.
  unfold QueryChunks, mbind, M_bind, bind. unfold call at 1. cbn [fst snd].
  rewrite Hraw. cbn [check ret fst snd]. unfold call at 1. cbn [fst snd].
  rewrite Hrows. unfold deferring, lift. rewrite Hdec.
  by destruct (queryChunksFrom _ _ _ _ _ _ _ _).
Qed.

(** While the cursor yields fewer rows than a chunk holds, the loop runs
    the callback once, after the last row, with all the rows read. *)
Lemma queryChunksFrom_partial_chunk c parser T p rows :
  neverFails c parser →
  ∀ s idx w,
    length s = idx →
    (Z.of_nat (idx + length rows) < ChunkSize parser)%Z →
    (0 < idx + length rows)%nat →
    ∃ w' b,
      queryChunksFrom c parser T p (Some s) idx rows w = (Ok (), w')
      ∧ chunksSeen (ioLog w') = (chunksSeen (ioLog w) ++ [b])%list
      ∧ length b = (idx + length rows)%nat.
Proof.
  intros Hquiet.
  induction rows as [|r rows IH]; intros s idx w Hlen Hk Hpos.
  { rewrite queryChunksFrom_end by done. simpl in Hpos.
    destruct (decide (0 < idx)%nat); [|lia].
    eexists _, (take idx s). split; [done|].
    rewrite !chunksSeen_logCall, app_nil_r. split; [done|].
    rewrite length_take. simpl. lia. }
  assert ((if (length s <=? idx)%nat then (s ++ [newElem T p])%list else s) !! idx
          = Some (newElem T p)) as Hx.
  { rewrite Hlen, Nat.leb_refl, lookup_app_r by lia.
    by rewrite Hlen, Nat.sub_diag. }
  rewrite (queryChunksFrom_step _ _ _ _ _ _ _ _ _ _ Hquiet Hx). cbn zeta.
  rewrite Hlen, Nat.leb_refl.
  set (s' := <[idx := _]> _).
  assert (length s' = S idx) as Hlen'.
  { unfold s'. rewrite length_insert, length_app. simpl. lia. }
  simpl in Hk.
  destruct (decide _) as [Hn|_]; [lia|].
  destruct (IH s' (S idx) (logCall (EvScanRows idx) (logCall EvNext w)))
    as (w' & b & Hrun & Hseen & Hb); [done|simpl; lia|lia|].
  exists w', b. split; [done|].
  rewrite Hseen, !chunksSeen_logCall, !app_nil_r.
  split; [done|]. simpl. lia.
Qed.

(** The part of the chunking claim that the code meets: a cursor of fewer
    rows than the chunk size, but at least one, runs the callback once with
    all the rows. *)
Lemma QueryChunks_partial_chunk
    (c : Client) (parser : ChunkParser) (rows : list row)
    (n : string) (decl : list (fieldDecl gotype)) :
  neverFails c parser →
  (∀ log, rowsResult (db c) log = inr rows) →
  Chunk parser = Some (VRef (VSlice (TStruct n decl) [])) →
  rows ≠ [] →
  (Z.of_nat (length rows) < ChunkSize parser)%Z →
  (QueryChunks c parser initialWorld).1 = Ok ()
  ∧ chunkLengths c parser = [length rows].
Proof.
  intros Hquiet Hrows Hchunk Hne Hk. unfold chunkLengths.
  pose proof Hquiet as (Hraw & _ & _).
  rewrite (QueryChunks_unfold c parser initialWorld rows
             (VRef (VSlice (TStruct n decl) [])) (TStruct n decl) false)
    by (rewrite ?Hchunk; done).
  destruct (queryChunksFrom_partial_chunk c parser (TStruct n decl) false rows
              Hquiet [] 0%nat
              (logCall EvRows
                 (logCall (EvRaw (Query parser) (Params parser)) initialWorld)))
    as (w' & b & Hrun & Hseen & Hb); [done|done|destruct rows; simpl; [done|lia]|].
  cbn zeta. rewrite Hrun. cbn [fst snd]. split; [done|].
  rewrite chunksSeen_logCall, Hseen. simpl. by rewrite Hb.
Qed.

(** The scenario of the specification, on the code: seven rows in chunks of
    three run the callback four times, with buffers of length 3, 3, 3
    and 1. *)
Example QueryChunks_seven_rows_by_three
    (r1 r2 r3 r4 r5 r6 r7 : row) (scan : row → value → value) :
  chunkLengths (mkClient "users" (quietDB [r1; r2; r3; r4; r5; r6; r7] scan))
    (userChunks 3) = [3; 3; 3; 1]%nat.
Proof. reflexivity. Qed.

(** C1: when the cursor yields exactly as many rows as the chunk size, and
    neither the database nor the callback fails, [QueryChunks] on an empty
    slice of structs returns nil after running the callback twice: once
    with the full chunk and once more with a buffer of length 1. *)
Theorem QueryChunks_one_full_chunk_runs_callback_twice
    (c : Client) (parser : ChunkParser) (rows : list row)
    (n : string) (decl : list (fieldDecl gotype)) :
  neverFails c parser →
  (∀ log, rowsResult (db c) log = inr rows) →
  Chunk parser = Some (VRef (VSlice (TStruct n decl) [])) →
  rows ≠ [] →
  Z.of_nat (length rows) = ChunkSize parser →
  (QueryChunks c parser initialWorld).1 = Ok ()
  ∧ chunkLengths c parser = [length rows; 1%nat].
Proof.
  intros Hquiet Hrows Hchunk Hne Hk. unfold chunkLengths.
  pose proof Hquiet as (Hraw & _ & _).
  rewrite (QueryChunks_unfold c parser initialWorld rows
             (VRef (VSlice (TStruct n decl) [])) (TStruct n decl) false)
    by (rewrite ?Hchunk; done).
  destruct (queryChunksFrom_last_chunk c parser (TStruct n decl) false rows
              Hquiet [] 0%nat
              (logCall EvRows
                 (logCall (EvRaw (Query parser) (Params parser)) initialWorld)))
    as (w' & b1 & b2 & Hrun & Hseen & Hb1 & Hb2); [done..|].
  cbn zeta. rewrite Hrun. cbn [fst snd]. split; [done|].
  rewrite chunksSeen_logCall, Hseen. simpl. by rewrite Hb1, Hb2.
Qed.

Lemma QueryChunks_one_full_chunk_witness :
  chunkLengths (mkClient "users" (quietDB [∅; ∅; ∅] (λ _ x, x))) (userChunks 3)
  = [3; 1]%nat.
Proof.
  apply (QueryChunks_one_full_chunk_runs_callback_twice
           (mkClient "users" (quietDB [∅; ∅; ∅] (λ _ x, x))) (userChunks 3)
           [∅; ∅; ∅] "main.User" (structFields User)).
  - repeat split.
  - reflexivity.
  - reflexivity.
  - discriminate.
  - reflexivity.
Defined.

(** ** Decoding a row into a record *)

(** The loop keeps the number of fields. *)
Lemma fillStructFrom_length info T decl l vals :
  length (fillStructFrom info T decl vals l).1 = length vals.
Proof.
  revert vals. induction l as [|[c a] l IH]; intros vals; simpl; [done|].
  destruct (decl !! _) as [f|]; [|done]. destruct (vals !! _); [|done].
  destruct a as [a|]; [|done].
  destruct (ConvertibleTo _ _); [|done]. destruct (isExported _); [|done].
  by rewrite IH, length_insert.
Qed.

(** The loop writes at the positions [info.Index] gives for the columns of
    the row and nowhere else. *)
Lemma fillStructFrom_frame info T decl l vals j :
  (∀ c, c ∈ l.*1 → indexAt info c ≠ j) →
  (fillStructFrom info T decl vals l).1 !! j = vals !! j.
Proof.
  revert vals. induction l as [|[c a] l IH]; intros vals Hj; simpl; [done|].
  destruct (decl !! _) as [f|]; [|done]. destruct (vals !! _); [|done].
  destruct a as [a|]; [|done].
  destruct (ConvertibleTo _ _); [|done]. destruct (isExported _); [|done].
  rewrite IH.
  - apply list_lookup_insert_ne, Hj. simpl. left.
  - intros c' Hc'. apply Hj. simpl. by right.
Qed.

(** Whatever error the loop returns, its second argument is the type of the
    field the column was looked up to and its third the type of [entity]:
    the type of the row's value is not among the arguments. *)
Lemma fillStructFrom_error info T decl l vals e :
  (fillStructFrom info T decl vals l).2 = Err e →
  ∃ c f, c ∈ l.*1 ∧ decl !! indexAt info c = Some f
         ∧ e = ErrFillStructConvert c (fieldType f) T.
Proof.
  revert vals. induction l as [|[c a] l IH]; intros vals; simpl; [done|].
  destruct (decl !! _) as [f|] eqn:Hf; [|done]. destruct (vals !! _); [|done].
  destruct a as [a|]; [|done].
  destruct (ConvertibleTo _ _).
  - destruct (isExported _); [|done].
    intros (c' & f' & ? & ? & ?)%IH. exists c', f'. split; [by right|done].
  - simpl. intros [= <-]. exists c, f. split; [left|done].
Qed.

(** A column that tags a field of a record whose tags are pairwise distinct
    is looked up to that field. *)
Lemma indexAt_tag n decl c :
  NoDup (fieldTag <$> decl) → c ∈ fieldTag <$> decl → c ≠ "" →
  ∃ f, decl !! indexAt (getTagNames (TStruct n decl)) c = Some f ∧ fieldTag f = c.
Proof.
  intros Hnd (f & -> & Hf)%list_elem_of_fmap Hne.
  apply list_elem_of_lookup in Hf as [i Hi].
  exists f. by rewrite (indexAt_known n decl i f).
Qed.

(** The frame of a decode whose columns are all known: when the tags of the
    record are pairwise distinct and every column of the row tags a field,
    each field whose column is not a key of the row keeps its value, and
    so does a field without a tag. *)
Lemma FillStructWith_frame_known n decl vals l w j f :
  cacheOk w →
  NoDup (fieldTag <$> decl) →
  (∀ c, c ∈ l.*1 → c ∈ fieldTag <$> decl ∧ c ≠ "") →
  decl !! j = Some f → fieldTag f ∉ l.*1 →
  ∃ vals' r,
    (FillStructWith (Some (VRef (VStruct n decl vals))) l w).1
      = (Some (VRef (VStruct n decl vals')), r)
    ∧ vals' !! j = vals !! j.
Proof.
  intros Hok Hnd Hknown Hj Hout. unfold FillStructWith. simpl.
  destruct (decide (Ptr = Ptr)); [|done]. destruct (decide (Struct = Struct)); [|done].
  pose proof (cachedTagInfo_fst (TStruct n decl) w Hok) as Hinfo.
  destruct (cachedTagInfo (TStruct n decl) w) as [info w']. simpl in Hinfo. subst info.
  pose proof (fillStructFrom_frame (getTagNames (TStruct n decl))
                (TPtr (TStruct n decl)) decl l vals j) as Hframe.
  destruct (fillStructFrom _ _ _ _ _) as [vals' r]. simpl in *.
  exists vals', r. split; [done|]. apply Hframe.
  intros c Hc Heq. destruct (Hknown c Hc) as [Hin Hne].
  destruct (indexAt_tag n decl c Hnd Hin Hne) as (g & Hg & Htag).
  rewrite Heq in Hg. by simplify_eq.
Qed.

(** The scenario of the specification: decoding [{"id":1,"name":"Ann"}] into
    a zero [User] yields [{1,"Ann",nil}], in either order of the row. *)
Example FillStructWith_User_scenario :
  ∀ l, l ∈ permutations [("id", Some (VInt 1)); ("name", Some (VString "Ann"))] →
  (FillStructWith (Some (VRef (zeroValue User))) l initialWorld).1
  = (Some (VRef (mkUser 1 "Ann" (VNilPtr TString))), Ok ()).
Proof.
  intros l Hl. vm_compute in Hl.
  repeat (apply elem_of_cons in Hl as [->|Hl]; [reflexivity|]).
  by apply elem_of_nil in Hl.
Qed.

(** What the decode of a row with a single column that tags no field does:
    the column is looked up to position 0. *)
Lemma FillStructWith_unknown_column n decl vals c a f0 v0 w :
  cacheOk w →
  c ∉ fieldTag <$> decl →
  decl !! 0%nat = Some f0 → vals !! 0%nat = Some v0 →
  ConvertibleTo (typeOf a) (fieldType f0) = true →
  isExported (fieldName f0) = true →
  (FillStructWith (Some (VRef (VStruct n decl vals))) [(c, Some a)] w).1
  = (Some (VRef (VStruct n decl (<[0%nat := Convert a (fieldType f0)]> vals))),
     Ok ()).
Proof.
  intros Hok Hc Hf0 Hv0 Hconv Hexp.
  pose proof (cachedTagInfo_fst (TStruct n decl) w Hok) as Hinfo.
  unfold FillStructWith. simpl.
  destruct (cachedTagInfo (TStruct n decl) w) as [info w']. simpl in Hinfo.
  subst info. cbn [fillStructFrom].
  by rewrite indexAt_unknown, Hf0, Hv0, Hconv, Hexp.
Qed.

(** C3: a row whose only column tags no field of the record is decoded
    without an error whenever its value converts to the type of the first
    field, if that field is exported: the call returns nil and the record
    holds the value in its first field. *)
Theorem FillStructWith_unknown_column_accepted n decl vals c a f0 v0 w :
  cacheOk w →
  c ∉ fieldTag <$> decl →
  decl !! 0%nat = Some f0 → vals !! 0%nat = Some v0 →
  ConvertibleTo (typeOf a) (fieldType f0) = true →
  isExported (fieldName f0) = true →
  Index (getTagNames (TStruct n decl)) !! c = None
  ∧ (FillStructWith (Some (VRef (VStruct n decl vals))) [(c, Some a)] w).1
    = (Some (VRef (VStruct n decl (<[0%nat := Convert a (fieldType f0)]> vals))),
       Ok ()).
Proof.
  intros Hok Hc Hf0 Hv0 Hconv Hexp. split.
  - unfold getTagNames. simpl. by rewrite getTagNamesFrom_Index_notin.
  - by eapply FillStructWith_unknown_column.
Qed.

Lemma FillStructWith_unknown_column_witness :
  Index (getTagNames User) !! "age" = None
  ∧ (FillStructWith (Some (VRef (zeroValue User)))
       [("age", Some (VInt 42))] initialWorld).1
    = (Some (VRef (mkUser 42 "" (VNilPtr TString))), Ok ()).
Proof.
  apply (FillStructWith_unknown_column_accepted "main.User" (structFields User)
           [VInt 0; VString ""; VNilPtr TString] "age" (VInt 42)
           (mkField (exported "ID") "id" TInt) (VInt 0) initialWorld).
  - apply cacheOk_initial.
  - intros Hin. simpl in Hin. rewrite !elem_of_cons in Hin.
    destruct Hin as [|[|[|Hin]]]; try discriminate. by apply elem_of_nil in Hin.
  - reflexivity.
  - reflexivity.
  - reflexivity.
  - reflexivity.
Defined.

(** C6: every error [FillStructWith] returns for a row decoded into a
    record is the conversion error built from a column of the row, the type
    of the field that column was looked up to, and the type of the pointer
    to the record; the type of the row's value is not among its
    arguments. *)
Theorem FillStructWith_mismatch_reports_field_and_entity
    n decl vals l w entity' e :
  cacheOk w →
  (FillStructWith (Some (VRef (VStruct n decl vals))) l w).1 = (entity', Err e) →
  ∃ c f, c ∈ l.*1
         ∧ decl !! indexAt (getTagNames (TStruct n decl)) c = Some f
         ∧ e = ErrFillStructConvert c (fieldType f) (TPtr (TStruct n decl)).
Proof.
  intros Hok Hrun.
  pose proof (cachedTagInfo_fst (TStruct n decl) w Hok) as Hinfo.
  unfold FillStructWith in Hrun. simpl in Hrun.
  destruct (cachedTagInfo (TStruct n decl) w) as [info w']. simpl in Hinfo.
  subst info.
  pose proof (fillStructFrom_error (getTagNames (TStruct n decl))
                (TPtr (TStruct n decl)) decl l vals e) as Herr.
  destruct (fillStructFrom _ _ _ _ _) as [vals' r]. simpl in *.
  apply Herr. congruence.
Qed.

Lemma FillStructWith_mismatch_witness :
  ConvertibleTo TString TInt = false
  ∧ (∃ c f, c ∈ [("id", Some (VString "abc"))].*1
            ∧ structFields User !! indexAt (getTagNames User) c = Some f
            ∧ ErrFillStructConvert "id" TInt (TPtr User)
              = ErrFillStructConvert c (fieldType f) (TPtr User))
  ∧ errorString (ErrFillStructConvert "id" TInt (TPtr User))
    = "FillStructWith: cannot convert atribute id of type int to type *main.User".
Proof.
  split; [reflexivity|]. split; [|reflexivity].
  apply (FillStructWith_mismatch_reports_field_and_entity "main.User"
           (structFields User) [VInt 0; VString ""; VNilPtr TString]
           [("id", Some (VString "abc"))] initialWorld
           (Some (VRef (zeroValue User)))
           (ErrFillStructConvert "id" TInt (TPtr User))).
  - apply cacheOk_initial.
  - reflexivity.
Defined.

(** C7: decoding a row whose only column [c] tags no field overwrites the
    first field of the record, although the column of that field is not a
    key of the row; the other fields keep their values. *)
Theorem FillStructWith_writes_outside_the_row n decl vals c a f0 v0 w :
  cacheOk w →
  c ∉ fieldTag <$> decl →
  decl !! 0%nat = Some f0 → vals !! 0%nat = Some v0 →
  ConvertibleTo (typeOf a) (fieldType f0) = true →
  isExported (fieldName f0) = true →
  ∃ vals',
    (FillStructWith (Some (VRef (VStruct n decl vals))) [(c, Some a)] w).1
    = (Some (VRef (VStruct n decl vals')), Ok ())
    ∧ (fieldTag f0 ∉ [(c, Some a)].*1)
    ∧ vals' !! 0%nat = Some (Convert a (fieldType f0))
    ∧ ∀ j, j ≠ 0%nat → vals' !! j = vals !! j.
Proof.
  intros Hok Hc Hf0 Hv0 Hconv Hexp.
  exists (<[0%nat := Convert a (fieldType f0)]> vals). split.
  { by eapply FillStructWith_unknown_column. }
  split.
  { simpl. intros Heq%list_elem_of_singleton. apply Hc. rewrite <-Heq.
    apply list_elem_of_fmap. exists f0. split; [done|].
    by eapply list_elem_of_lookup_2. }
  split.
  - apply list_lookup_insert_eq. by eapply lookup_lt_Some.
  - intros j Hj. by apply list_lookup_insert_ne.
Qed.

Lemma FillStructWith_writes_outside_the_row_witness :
  ∃ vals',
    (FillStructWith (Some (VRef (mkUser 7 "Bob" (VNilPtr TString))))
       [("nickname", Some (VInt 9))] initialWorld).1
    = (Some (VRef (VStruct "main.User" (structFields User) vals')), Ok ())
    ∧ ("id" ∉ [("nickname", Some (VInt 9))].*1)
    ∧ vals' !! 0%nat = Some (VInt 9)
    ∧ ∀ j, j ≠ 0%nat →
        vals' !! j = [VInt 7; VString "Bob"; VNilPtr TString] !! j.
Proof.
  apply (FillStructWith_writes_outside_the_row "main.User" (structFields User)
           [VInt 7; VString "Bob"; VNilPtr TString] "nickname" (VInt 9)
           (mkField (exported "ID") "id" TInt) (VInt 7) initialWorld).
  - apply cacheOk_initial.
  - intros Hin. simpl in Hin. rewrite !elem_of_cons in Hin.
    destruct Hin as [|[|[|Hin]]]; try discriminate. by apply elem_of_nil in Hin.
  - reflexivity.
  - reflexivity.
  - reflexivity.
  - reflexivity.
Defined.

(** The same decode, evaluated: [{7,"Bob",nil}] becomes [{9,"Bob",nil}]. *)
Example FillStructWith_nickname_lands_in_ID :
  (FillStructWith (Some (VRef (mkUser 7 "Bob" (VNilPtr TString))))
     [("nickname", Some (VInt 9))] initialWorld).1
  = (Some (VRef (mkUser 9 "Bob" (VNilPtr TString))), Ok ()).
Proof. reflexivity. Qed.

(** ** Idempotence of the cache *)

Lemma cacheInv_initial : cacheInv initialWorld.
Proof.
  split; [apply cacheOk_initial|]. split; [constructor|].
  intros t Ht. by apply elem_of_nil in Ht.
Qed.

Lemma cacheInv_stable : stable cacheInv.
Proof.
  intros t w (Hok & Hnd & Hin). split; [by apply cachedTagInfo_cacheOk|].
  unfold cachedTagInfo. destruct (tagInfoCache w !! t) as [info|] eqn:Hl; [done|].
  simpl. split.
  - apply NoDup_app. split; [done|]. split; [|apply NoDup_singleton].
    intros t' Ht' ->%list_elem_of_singleton.
    apply Hin in Ht' as [? ?]. congruence.
  - intros t' [Ht'| ->%list_elem_of_singleton]%elem_of_app.
    + destruct (decide (t = t')) as [->|Hne]; [by rewrite lookup_insert_eq|].
      rewrite lookup_insert_ne by done. by apply Hin.
    + by rewrite lookup_insert_eq.
Qed.

Lemma runCall_stable P k w : stable P → P w → P (runCall k w).
Proof.
  intros HP Hw. destruct k; simpl.
  - by apply StructToMap_stable.
  - by apply FillStructWith_stable.
  - by apply FillSliceWith_stable.
Qed.

Lemma runCalls_stable P ks w : stable P → P w → P (runCalls ks w).
Proof.
  intros HP. revert w. induction ks as [|k ks IH]; intros w Hw; [done|].
  simpl. by apply IH, runCall_stable.
Qed.

Lemma scanned_stable :
  stable (λ w, ∀ t, is_Some (tagInfoCache w !! t) → t ∈ scanLog w).
Proof.
  intros t w Hin. unfold cachedTagInfo.
  destruct (tagInfoCache w !! t) as [info|] eqn:Hl; [done|].
  simpl. intros t' Ht'. apply elem_of_app.
  destruct (decide (t = t')) as [->|Hne].
  - right. by apply list_elem_of_singleton.
  - left. apply Hin. by rewrite lookup_insert_ne in Ht'.
Qed.

Lemma cachedTagInfo_hit t w :
  is_Some (tagInfoCache w !! t) → (cachedTagInfo t w).2 = w.
Proof. intros [info Hl]. unfold cachedTagInfo. by rewrite Hl. Qed.

Lemma cachedTagInfo_is_cached t w :
  is_Some (tagInfoCache (cachedTagInfo t w).2 !! t).
Proof.
  unfold cachedTagInfo. destruct (tagInfoCache w !! t) as [info|] eqn:Hl; simpl.
  - by rewrite Hl.
  - by rewrite lookup_insert_eq.
Qed.

Lemma StructToMap_world n decl vals obj w :
  obj = Some (VStruct n decl vals) ∨ obj = Some (VRef (VStruct n decl vals)) →
  (StructToMap obj w).2 = (cachedTagInfo (TStruct n decl) w).2.
Proof.
  intros [-> | ->]; unfold StructToMap; simpl;
    by destruct (cachedTagInfo (TStruct n decl) w).
Qed.

Lemma FillStructWith_world n decl vals dbRow w :
  (FillStructWith (Some (VRef (VStruct n decl vals))) dbRow w).2
  = (cachedTagInfo (TStruct n decl) w).2.
Proof.
  unfold FillStructWith. simpl.
  destruct (cachedTagInfo (TStruct n decl) w) as [info w'].
  by destruct (fillStructFrom _ _ _ _ _).
Qed.

Lemma FillStructWith_typeOf n decl vals dbRow w :
  ∃ vals',
    (FillStructWith (Some (VRef (VStruct n decl vals))) dbRow w).1.1
    = Some (VRef (VStruct n decl vals')).
Proof.
  unfold FillStructWith. simpl.
  destruct (cachedTagInfo (TStruct n decl) w) as [info w'].
  destruct (fillStructFrom _ _ _ _ _) as [vals' r]. by exists vals'.
Qed.

(** Once the struct type of the elements is cached, the loop of
    [FillSliceWith] leaves the cache and the scan log alone. *)
Lemma fillSliceFrom_world n decl dbRows :
  ∀ idx slice w,
    is_Some (tagInfoCache w !! TStruct n decl) →
    Forall (λ x, typeOf x = TStruct n decl) slice →
    (fillSliceFrom (TStruct n decl) false idx slice dbRows w).2 = w.
Proof.
  induction dbRows as [|dbRow dbRows IH]; intros idx slice w Hin Hty; [done|].
  cbn [fillSliceFrom].
  set (slice1 := if (length slice <=? idx)%nat then _ else slice).
  assert (Forall (λ x, typeOf x = TStruct n decl) slice1) as Hty1.
  { unfold slice1. destruct (length slice <=? idx)%nat; [|done].
    apply Forall_app. split; [done|]. by repeat constructor. }
  destruct (slice1 !! idx) as [x|] eqn:Hx; [|done].
  pose proof (Forall_lookup_1 _ _ _ _ Hty1 Hx) as Htx.
  destruct x as [| | | | | | |n' decl' vals]; try done.
  simpl in Htx. injection Htx as -> ->.
  pose proof (FillStructWith_world n decl vals dbRow w) as Hw.
  rewrite (cachedTagInfo_hit _ _ Hin) in Hw.
  destruct (FillStructWith_typeOf n decl vals dbRow w) as [vals' Hent].
  destruct (FillStructWith _ dbRow w) as [[ent r] w1]. simpl in Hw, Hent.
  subst w1 ent. destruct r as [[]|e|p]; [|done..].
  apply IH; [done|]. apply Forall_insert; [done|]. done.
Qed.

Lemma FillSliceWith_world n decl items dbRows w :
  wfValue (VSlice (TStruct n decl) items) = true →
  (FillSliceWith (Some (VRef (VSlice (TStruct n decl) items))) dbRows w).2
  = (cachedTagInfo (TStruct n decl) w).2.
Proof.
  intros Hwf%wfValue_slice_inv. unfold FillSliceWith. simpl.
  pose proof (cachedTagInfo_is_cached (TStruct n decl) w) as Hin.
  destruct (cachedTagInfo (TStruct n decl) w) as [info w']. simpl in Hin.
  pose proof (fillSliceFrom_world n decl dbRows 0 items w' Hin) as Hw.
  destruct (fillSliceFrom _ _ _ _ _ w') as [r w1]. simpl in *.
  rewrite Hw; [by destruct r|].
  eapply Forall_impl; [exact Hwf|]. by intros x [_ ?].
Qed.

(** C8: after any sequence of calls of [StructToMap], [FillStructWith] and
    [FillSliceWith] from the initial state, no type has been scanned by
    [getTagNames] more than once, and the types scanned are the types whose
    descriptor is in [tagInfoCache]. A lookup of [t] returns the descriptor
    [getTagNames t], whatever came before; it leaves that descriptor in the
    cache, and it scans [t] (once) exactly when [t] was not scanned before.
    A second lookup returns the descriptor again and leaves the cache and
    the scan log as the first left them. A call of [StructToMap] or
    [FillStructWith] on a record of type [t], or of [FillSliceWith] on a
    slice of such records, changes the cache and the scan log as one lookup
    of [t] does. *)
Theorem tagInfoCache_idempotent (ks : list pkgCall) (t : gotype) :
  let w := runCalls ks initialWorld in
  let w' := (cachedTagInfo t w).2 in
  NoDup (scanLog w)
  ∧ (cachedTagInfo t w).1 = getTagNames t
  ∧ cachedTagInfo t w' = (getTagNames t, w')
  ∧ (t ∈ scanLog w ↔ tagInfoCache w !! t = Some (getTagNames t))
  ∧ tagInfoCache w' !! t = Some (getTagNames t)
  ∧ scanLog w'
    = (if decide (t ∈ scanLog w) then scanLog w else (scanLog w ++ [t])%list)
  ∧ ∀ n decl vals,
      t = TStruct n decl →
      (StructToMap (Some (VStruct n decl vals)) w).2 = w'
      ∧ (StructToMap (Some (VRef (VStruct n decl vals))) w).2 = w'
      ∧ (∀ dbRow,
           (FillStructWith (Some (VRef (VStruct n decl vals))) dbRow w).2 = w')
      ∧ ∀ items dbRows,
          wfValue (VSlice t items) = true →
          (FillSliceWith (Some (VRef (VSlice t items))) dbRows w).2 = w'.
Proof.
  intros w w'.
  assert (cacheInv w) as (Hok & Hnd & Hin).
  { apply runCalls_stable; [apply cacheInv_stable|apply cacheInv_initial]. }
  assert (∀ t, is_Some (tagInfoCache w !! t) → t ∈ scanLog w) as Hscanned.
  { apply (runCalls_stable _ ks initialWorld scanned_stable).
    intros t' [? Ht']. simpl in Ht'. by rewrite lookup_empty in Ht'. }
  pose proof (cachedTagInfo_cached t w Hok) as Hl. fold w' in Hl.
  assert (t ∈ scanLog w ↔ tagInfoCache w !! t = Some (getTagNames t)) as Hiff.
  { split.
    - intros [info Hinfo]%Hin. by rewrite Hinfo, (Hok t info Hinfo).
    - intros Hc. apply Hscanned. by rewrite Hc. }
  split; [done|]. split; [by apply cachedTagInfo_fst|].
  split; [unfold cachedTagInfo; by rewrite Hl|].
  split; [done|]. split; [done|]. split.
  - unfold w', cachedTagInfo. destruct (decide (t ∈ scanLog w)) as [Ht|Ht].
    + apply Hiff in Ht. by rewrite Ht.
    + destruct (tagInfoCache w !! t) as [info|] eqn:Hc; [|done].
      destruct Ht. apply Hscanned. by rewrite Hc.
  - intros n decl vals ->. split; [by apply (StructToMap_world n decl vals); left|].
    split; [by apply (StructToMap_world n decl vals); right|].
    split; [intros dbRow; apply FillStructWith_world|].
    intros items dbRows Hwf. by apply FillSliceWith_world.
Qed.

(** ** Arguments of the wrong shape *)

Lemma StructToMap_shape_error v w :
  isStructOrStructPtr (typeOf v) = false →
  StructToMap (Some v) w = (Err ErrStructToMapInput, w).
Proof.
  intros Hshape. unfold StructToMap.
  destruct v as [| | | |e|x| |]; try done.
  - by destruct e.
  - by destruct x.
Qed.

Lemma FillStructWith_shape_error v dbRow w :
  isStructPtr (typeOf v) = false →
  ∃ e, FillStructWith (Some v) dbRow w = ((Some v, Err e), w)
       ∧ isShapeError e = true.
Proof.
  intros Hshape. unfold FillStructWith.
  destruct v as [| | | |e|x| |]; try (by eexists).
  - destruct e; try done; by eexists.
  - destruct x; try done; by eexists.
Qed.

Lemma decodeAsSliceOfStructs_shape_error v :
  isSliceOfStructsPtr (typeOf v) = false →
  ∃ e, decodeAsSliceOfStructs (Some v) = Err e ∧ isShapeError e = true.
Proof.
  intros Hshape. unfold decodeAsSliceOfStructs.
  destruct (typeOf v) as [| | | |t| |]; try (by eexists).
  destruct t as [| | | | |el|]; try (by eexists).
  destruct el as [| | | |el'| |]; try done; try (by eexists).
  destruct el'; try done; by eexists.
Qed.

(** C5, the case the claim misses: [QueryChunks] given an integer for a
    chunk returns the shape error only after it has sent the query and
    opened the cursor. *)
Lemma QueryChunks_shape_error_after_query :
  (QueryChunks (mkClient "users" (quietDB [] (λ _ x, x))) intChunk initialWorld).1
  = Err (ErrFillListNotPtr TInt)
  ∧ dbCalls (ioLog (QueryChunks (mkClient "users" (quietDB [] (λ _ x, x)))
                      intChunk initialWorld).2)
    = [EvRaw "SELECT * FROM users" []; EvRows; EvClose].
Proof. split; reflexivity. Qed.

(** C5, as the code has it: an argument of the wrong shape makes
    [StructToMap], [FillStructWith] and [FillSliceWith] return a shape error
    and leave the world, the log of calls included, untouched; a [Chunk] of
    the wrong shape makes [QueryChunks], once its query has run and its
    cursor is open, return a shape error after exactly three calls on the
    database: the query, the opening of the cursor and its closing. *)
Theorem shape_errors (v : value) (w : world) :
  (isStructOrStructPtr (typeOf v) = false →
   StructToMap (Some v) w = (Err ErrStructToMapInput, w)
   ∧ isShapeError ErrStructToMapInput = true)
  ∧ (isStructPtr (typeOf v) = false →
     ∀ dbRow, ∃ e, FillStructWith (Some v) dbRow w = ((Some v, Err e), w)
                   ∧ isShapeError e = true)
  ∧ (isSliceOfStructsPtr (typeOf v) = false →
     ∀ dbRows, ∃ e, FillSliceWith (Some v) dbRows w = (Err e, w)
                    ∧ isShapeError e = true)
  ∧ (isSliceOfStructsPtr (typeOf v) = false →
     ∀ c parser rows,
       Chunk parser = Some v →
       rawError (db c) (ioLog w) (Query parser) (Params parser) = None →
       rowsResult (db c) (ioLog w ++ [EvRaw (Query parser) (Params parser)])
         = inr rows →
       ∃ e, (QueryChunks c parser w).1 = Err e
            ∧ isShapeError e = true
            ∧ ioLog (QueryChunks c parser w).2
              = (ioLog w ++ [EvRaw (Query parser) (Params parser); EvRows;
                             EvClose])%list).
Proof.
  split; [|split; [|split]].
  - intros Hshape. split; [by apply StructToMap_shape_error|done].
  - intros Hshape dbRow. by apply FillStructWith_shape_error.
  - intros Hshape dbRows.
    destruct (decodeAsSliceOfStructs_shape_error v Hshape) as (e & He & Hs).
    exists e. unfold FillSliceWith. by rewrite He.
  - intros Hshape c parser rows Hchunk Hraw Hrows.
    destruct (decodeAsSliceOfStructs_shape_error v Hshape) as (e & He & Hs).
    exists e.
    unfold QueryChunks, mbind, M_bind, bind, call, check, deferring, lift, fail.
    simpl. rewrite Hraw. simpl. rewrite Hrows, Hchunk, He. simpl.
    by rewrite <-!app_assoc.
Qed.

Lemma shape_errors_witness :
  StructToMap (Some (VInt 3)) initialWorld = (Err ErrStructToMapInput, initialWorld)
  ∧ (∃ e, FillStructWith (Some (VInt 3)) [] initialWorld
          = ((Some (VInt 3), Err e), initialWorld)
          ∧ isShapeError e = true)
  ∧ (∃ e, FillSliceWith (Some (VInt 3)) [] initialWorld = (Err e, initialWorld)
          ∧ isShapeError e = true)
  ∧ (∃ e, (QueryChunks (mkClient "users" (quietDB [] (λ _ x, x)))
             intChunk initialWorld).1 = Err e
          ∧ isShapeError e = true).
Proof.
  destruct (shape_errors (VInt 3) initialWorld) as (H1 & H2 & H3 & H4).
  split; [apply H1; reflexivity|].
  split; [apply H2; reflexivity|].
  split; [apply H3; reflexivity|].
  destruct (H4 eq_refl (mkClient "users" (quietDB [] (λ _ x, x))) intChunk []
              eq_refl eq_refl eq_refl) as (e & He & Hs & _).
  by exists e.
Defined.

(** ** Encoding a record, and partial updates *)

(** A key of the encoded row is the column of a field that is not a nil
    pointer. *)
Lemma structToMapFrom_key info i decl vals m m' c :
  structToMapFrom info i decl vals m = Ok m' →
  is_Some (m' !! c) →
  is_Some (m !! c)
  ∨ ∃ j f v, decl !! j = Some f ∧ vals !! j = Some v
             ∧ (∀ e, v ≠ VNilPtr e) ∧ namesAt info (i + j) = c.
Proof.
  revert i vals m. induction decl as [|f decl IH]; intros i vals m Hrun Hc.
  { simpl in Hrun. simplify_eq. by left. }
  destruct vals as [|v vals]; [simpl in Hrun; simplify_eq; by left|].
  assert (∀ m1, structToMapFrom info (S i) decl vals m1 = Ok m' →
            is_Some (m1 !! c)
            ∨ ∃ j g x, (f :: decl) !! j = Some g ∧ (v :: vals) !! j = Some x
                       ∧ (∀ e, x ≠ VNilPtr e) ∧ namesAt info (i + j) = c) as Hrest.
  { intros m1 Hm1. destruct (IH _ _ _ Hm1 Hc) as [?|(j & g & x & ? & ? & ? & Hn)];
      [by left|].
    right. exists (S j), g, x. repeat split; try done.
    by replace (i + S j)%nat with (S i + j)%nat by lia. }
  assert (∀ x, (∀ e, v ≠ VNilPtr e) →
            structToMapFrom info (S i) decl vals (<[namesAt info i := Some x]> m)
              = Ok m' →
            is_Some (m !! c)
            ∨ ∃ j g y, (f :: decl) !! j = Some g ∧ (v :: vals) !! j = Some y
                       ∧ (∀ e, y ≠ VNilPtr e) ∧ namesAt info (i + j) = c) as Hins.
  { intros x Hv Hm1. destruct (Hrest _ Hm1) as [Hin|?]; [|by right].
    destruct (decide (namesAt info i = c)) as [Heq|Hne].
    - right. exists 0%nat, f, v. repeat split; try done.
      by replace (i + 0)%nat with i by lia.
    - left. by rewrite lookup_insert_ne in Hin. }
  simpl in Hrun.
  destruct v; try (destruct (isExported _); [|done]; by eapply Hins).
  destruct (Hrest _ Hrun) as [?|?]; [by left|by right].
Qed.

(** [StructToMap] makes no call on a collaborator. *)
Lemma StructToMap_ioLog obj w : ioLog (StructToMap obj w).2 = ioLog w.
Proof.
  apply (StructToMap_stable (λ w', ioLog w' = ioLog w)); [|done].
  intros t w' Hw'. by rewrite cachedTagInfo_ioLog.
Qed.

(** The column of a nil pointer field is not a key of the encoded record,
    unless the record files another field under the same column. *)
Lemma StructToMap_omits_nil n decl vals obj w m i f e :
  obj = Some (VStruct n decl vals) ∨ obj = Some (VRef (VStruct n decl vals)) →
  cacheOk w →
  (StructToMap obj w).1 = Ok m →
  decl !! i = Some f → vals !! i = Some (VNilPtr e) →
  (∀ j g, j ≠ i → decl !! j = Some g → fieldTag g ≠ fieldTag f) →
  m !! fieldTag f = None.
Proof.
  intros Hobj Hok Hrun Hf Hv Hother.
  assert (structToMapFrom (getTagNames (TStruct n decl)) 0 decl vals ∅ = Ok m)
    as Hloop.
  { pose proof (cachedTagInfo_fst (TStruct n decl) w Hok) as Hinfo.
    destruct Hobj as [-> | ->]; unfold StructToMap in Hrun; simpl in Hrun;
      destruct (cachedTagInfo (TStruct n decl) w) as [info w'];
      simpl in Hinfo; by subst info. }
  destruct (m !! fieldTag f) as [a|] eqn:Hm; [|done]. exfalso.
  destruct (structToMapFrom_key _ _ _ _ _ _ (fieldTag f) Hloop)
    as [[? Hempty]|(j & g & x & Hg & Hx & Hnil & Hname)]; [by rewrite Hm| |].
  - by rewrite lookup_empty in Hempty.
  - simpl in Hname. rewrite namesAt_getTagNames, Hg in Hname.
    destruct (decide (j = i)) as [->|Hne].
    + rewrite Hv in Hx. simplify_eq. by eapply Hnil.
    + by eapply Hother.
Qed.

(** The calls [Update] makes are [Updates] calls whose rows have no [id]
    key. *)
Lemma Update_rows_without_id c items w :
  ∃ evs, ioLog (Update c items w).2 = (ioLog w ++ evs)%list
         ∧ Forall updateWithoutId evs.
Proof.
  revert w. induction items as [|item items IH]; intros w.
  { exists []. split; [by rewrite app_nil_r|constructor]. }
  simpl. unfold mbind, M_bind, bind.
  pose proof (StructToMap_ioLog item w) as Hlog.
  destruct (StructToMap item w) as [[m| |] w1]; simpl in Hlog;
    [|exists []; split; [by rewrite app_nil_r|constructor]..].
  unfold call at 1. cbn [fst snd].
  destruct (updatesError _ _ _ _ _) as [err|]; simpl.
  - exists [EvUpdates (tableName c) item (delete "id" m)].
    split; [by rewrite Hlog|]. repeat constructor. simpl. apply lookup_delete_eq.
  - match goal with |- context [Update c items ?w2] =>
      destruct (IH w2) as (evs & Hevs & Hall) end.
    exists (EvUpdates (tableName c) item (delete "id" m) :: evs). split.
    + rewrite Hevs. simpl. rewrite Hlog. by rewrite <-app_assoc.
    + constructor; [apply lookup_delete_eq|done].
Qed.

(** The scenario of the specification: updating [User{1,"Ann",nil}] sends
    the row [{"name":"Ann"}]. *)
Example Update_User_scenario :
  ioLog (Update (mkClient "users" (quietDB [] (λ _ x, x)))
           [Some (mkUser 1 "Ann" (VNilPtr TString))] initialWorld).2
  = [EvUpdates "users" (Some (mkUser 1 "Ann" (VNilPtr TString)))
       {["name" := Some (VString "Ann")]}].
Proof. reflexivity. Qed.

(** C4 fails as stated: the column [x] of the nil pointer field [A] of
    [Shared] is a key of the encoded record, because field [B] is filed
    under it too; and the row [Update] sends for an [Account] contains its
    identifier column, [user_id]. *)
Lemma Update_sends_identifier_not_named_id :
  (∃ m, (StructToMap (Some sharedValue) initialWorld).1 = Ok m
        ∧ m !! "x" = Some (Some (VInt 5)))
  ∧ ∃ m, ioLog (Update (mkClient "accounts" (quietDB [] (λ _ x, x)))
                  [Some (mkAccount 7 "Ann")] initialWorld).2
         = [EvUpdates "accounts" (Some (mkAccount 7 "Ann")) m]
         ∧ m !! "user_id" = Some (Some (VInt 7)).
Proof. split; eexists; split; reflexivity. Qed.

(** C4, as the code has it: (1) the row [StructToMap] builds for a record,
    passed by value or by pointer, has no key for the column of a nil
    pointer field, provided no other field of the record is filed under
    that column; (2) every call [Update] makes on the collaborator is an
    [Updates] call whose row has no key [id]. *)
Theorem partial_update_exclusion :
  (∀ n decl vals obj w m i f e,
     obj = Some (VStruct n decl vals) ∨ obj = Some (VRef (VStruct n decl vals)) →
     cacheOk w →
     (StructToMap obj w).1 = Ok m →
     decl !! i = Some f → vals !! i = Some (VNilPtr e) →
     (∀ j g, j ≠ i → decl !! j = Some g → fieldTag g ≠ fieldTag f) →
     m !! fieldTag f = None)
  ∧ (∀ c items w,
       ∃ evs, ioLog (Update c items w).2 = (ioLog w ++ evs)%list
              ∧ Forall updateWithoutId evs).
Proof.
  split.
  - intros. by eapply StructToMap_omits_nil.
  - apply Update_rows_without_id.
Qed.

Lemma partial_update_exclusion_witness :
  (∃ m, (StructToMap (Some (mkUser 1 "Ann" (VNilPtr TString))) initialWorld).1
        = Ok m
        ∧ m !! "email" = None)
  ∧ ∃ evs, ioLog (Update (mkClient "users" (quietDB [] (λ _ x, x)))
                    [Some (mkUser 1 "Ann" (VNilPtr TString))] initialWorld).2
           = evs
           ∧ Forall updateWithoutId evs.
Proof.
  destruct partial_update_exclusion as [Hencode Hupdate]. split.
  - eexists. split; [reflexivity|].
    apply (Hencode "main.User" (structFields User)
             [VInt 1; VString "Ann"; VNilPtr TString]
             (Some (mkUser 1 "Ann" (VNilPtr TString))) initialWorld _ 2%nat
             (mkField (exported "Email") "email" (TPtr TString)) TString);
      [by left|apply cacheOk_initial|reflexivity..|].
    intros [|[|[|j]]] g Hj Hg; simpl in Hg; by simplify_eq.
  - destruct (Hupdate (mkClient "users" (quietDB [] (λ _ x, x)))
                [Some (mkUser 1 "Ann" (VNilPtr TString))] initialWorld)
      as (evs & Hevs & Hall).
    exists evs. split; [exact Hevs|exact Hall].
Defined.

(** ** Round trip *)

Lemma elem_of_encodedPairs decl vals c a :
  (c, a) ∈ encodedPairs decl vals ↔
  ∃ j f v, decl !! j = Some f ∧ vals !! j = Some v ∧ c = fieldTag f ∧ a = Some v.
Proof.
  revert vals. induction decl as [|f decl IH]; intros vals; simpl.
  { split; [by intros ?%elem_of_nil|by intros (j & ? & ? & ? & _)]. }
  destruct vals as [|v vals].
  { split; [by intros ?%elem_of_nil|by intros (j & ? & ? & _ & ? & _)]. }
  rewrite elem_of_cons, IH. split.
  - intros [[= -> ->]|(j & g & x & ? & ? & ? & ?)].
    + by exists 0%nat, f, v.
    + by exists (S j), g, x.
  - intros ([|j] & g & x & Hg & Hx & -> & ->); simpl in *.
    + left. by simplify_eq.
    + right. by exists j, g, x.
Qed.

Lemma encodedPairs_keys decl vals :
  length vals = length decl → (encodedPairs decl vals).*1 = fieldTag <$> decl.
Proof.
  revert vals. induction decl as [|f decl IH]; intros [|v vals] Hlen;
    simpl in *; try done.
  f_equal. apply IH. lia.
Qed.

Lemma zeroValue_struct n decl :
  zeroValue (TStruct n decl) = VStruct n decl (zeroValue ∘ fieldType <$> decl).
Proof.
  reflexivity.
Qed.

(** Encoding a record of plain fields with pairwise distinct tags yields
    the row of its columns and values. *)
Lemma structToMapFrom_plain info i decl vals m :
  Forall2 (λ x f, wfValue x = true ∧ typeOf x = fieldType f) vals decl →
  Forall plainField decl →
  NoDup (fieldTag <$> decl) →
  (∀ j f, decl !! j = Some f → namesAt info (i + j) = fieldTag f) →
  (∀ f, f ∈ decl → m !! fieldTag f = None) →
  ∃ m', structToMapFrom info i decl vals m = Ok m'
        ∧ map_to_list m' ≡ₚ encodedPairs decl vals ++ map_to_list m.
Proof.
  intros Hvals. revert i m.
  induction Hvals as [|v f vals decl [Hwf Hty] _ IH];
    intros i m Hplain Hnd Hnames Hfresh.
  { exists m. done. }
  apply Forall_cons in Hplain as [(Hexp & Htag & Hkind) Hplain].
  rewrite fmap_cons in Hnd. apply NoDup_cons in Hnd as [Hf Hnd].
  pose proof (Hnames 0%nat f eq_refl) as Hname.
  replace (i + 0)%nat with i in Hname by lia.
  destruct (IH (S i) (<[fieldTag f := Some v]> m) Hplain Hnd) as (m' & Hrun & Hperm).
  { intros j g Hg. replace (S i + j)%nat with (i + S j)%nat by lia.
    by apply Hnames. }
  { intros g Hg. rewrite lookup_insert_ne; [apply Hfresh; by right|].
    intros Heq. apply Hf, list_elem_of_fmap. by exists g. }
  exists m'. split.
  - rewrite <-Hty in Hkind.
    destruct v; simpl in Hkind; try done; simpl; by rewrite Hexp, Hname.
  - rewrite Hperm, map_to_list_insert by (apply Hfresh; left).
    simpl. by rewrite Permutation_middle.
Qed.

(** Decoding entries of the encoded row, in any order and any number, into
    fields [cur] succeeds; it leaves at each position the field of the
    record when its column is among the entries, and what [cur] had there
    otherwise. *)
Lemma fillStructFrom_encoded info T decl vals l cur :
  Forall2 (λ x f, wfValue x = true ∧ typeOf x = fieldType f) vals decl →
  Forall plainField decl →
  (∀ j f, decl !! j = Some f → indexAt info (fieldTag f) = j) →
  length cur = length decl →
  (∀ p, p ∈ l → p ∈ encodedPairs decl vals) →
  (fillStructFrom info T decl cur l).2 = Ok ()
  ∧ ∀ j f, decl !! j = Some f →
      (fillStructFrom info T decl cur l).1 !! j
      = if decide (fieldTag f ∈ l.*1) then vals !! j else cur !! j.
Proof.
  intros Hvals Hplain Hindex. revert cur.
  induction l as [|[c a] l IH]; intros cur Hlen Hsub; cbn [fillStructFrom].
  { split; [done|]. intros j f Hf.
    rewrite decide_False; [done|by intros ?%elem_of_nil]. }
  destruct (proj1 (elem_of_encodedPairs decl vals c a) (Hsub _ (list_elem_of_here _ _)))
    as (i & g & v & Hg & Hv & -> & ->).
  rewrite (Hindex i g Hg), Hg.
  destruct (lookup_lt_is_Some_2 cur i) as [old Hold].
  { rewrite Hlen. by eapply lookup_lt_Some. }
  rewrite Hold.
  destruct (Forall2_lookup_lr _ _ _ _ _ _ Hvals Hv Hg) as [Hwf Hty].
  rewrite Forall_lookup in Hplain. destruct (Hplain i g Hg) as (Hexp & _ & _).
  rewrite <-Hty, ConvertibleTo_refl, Hexp, Convert_typeOf by done.
  destruct (IH (<[i := v]> cur)) as [Hok Hget].
  { by rewrite length_insert. }
  { intros p Hp. apply Hsub. by right. }
  split; [done|]. intros j f Hf. rewrite (Hget j f Hf), fmap_cons.
  cbn [fst].
  destruct (decide (fieldTag f ∈ l.*1)) as [Hin|Hout].
  { rewrite decide_True; [done|by right]. }
  destruct (decide (j = i)) as [->|Hne].
  - simplify_eq. rewrite decide_True by left.
    rewrite list_lookup_insert_eq; [done|by eapply lookup_lt_Some].
  - rewrite list_lookup_insert_ne by done.
    rewrite decide_False; [done|].
    intros [Heq|?]%elem_of_cons; [|done].
    apply Hne. by rewrite <-(Hindex j f Hf), Heq, (Hindex i g Hg).
Qed.

(** C2 fails as stated: [User{1, "Ann", &"ann@example.org"}] has every field
    present and is encoded without an error, but the row does not decode
    into a fresh [User]: in whatever order the row is visited, the string
    under [email] is refused for the field of type [*string]. *)
Lemma roundtrip_fails_on_pointer_field :
  ∃ m, (StructToMap (Some annWithEmail) initialWorld).1 = Ok m
       ∧ ∀ l, rangeOrder l m →
           (FillStructWith (Some (VRef (zeroValue User))) l
              (StructToMap (Some annWithEmail) initialWorld).2).1.2
           = Err (ErrFillStructConvert "email" (TPtr TString) (TPtr User)).
Proof.
  eexists. split; [reflexivity|].
  intros l Hl. unfold rangeOrder in Hl. symmetry in Hl.
  apply permutations_Permutation in Hl. vm_compute in Hl.
  repeat (apply elem_of_cons in Hl as [->|Hl]; [reflexivity|]).
  by apply elem_of_nil in Hl.
Qed.

(** An untagged field does not survive the round trip either: the value of
    [Age] is filed under the empty column, which is looked up to field 0. *)
Example roundtrip_fails_on_untagged_field :
  ∃ m, (StructToMap (Some (VStruct "main.Mixed" (structFields Mixed) [VInt 1; VInt 5]))
          initialWorld).1 = Ok m
       ∧ (FillStructWith (Some (VRef (zeroValue Mixed)))
            [("id", Some (VInt 1)); ("", Some (VInt 5))] initialWorld).1
         = (Some (VRef (VStruct "main.Mixed" (structFields Mixed) [VInt 5; VInt 0])),
            Ok ())
       ∧ rangeOrder [("id", Some (VInt 1)); ("", Some (VInt 5))] m.
Proof.
  eexists. split; [reflexivity|]. split; [reflexivity|].
  unfold rangeOrder. apply permutations_Permutation. vm_compute.
  repeat constructor.
Qed.

(** C2, as the code has it: a well-typed record whose fields are all
    exported, carry pairwise distinct non-empty tags and are not of pointer
    type (their types are the other types of the fragment: [bool], [int],
    [int64], [string], slices and structs) is encoded without an error, and
    its row, visited in any order, decodes into a fresh record of the same
    type without an error and yields the record again. *)
Theorem roundtrip_plain_record n decl vals w :
  wfValue (VStruct n decl vals) = true →
  Forall plainField decl →
  NoDup (fieldTag <$> decl) →
  cacheOk w →
  ∃ m, (StructToMap (Some (VStruct n decl vals)) w).1 = Ok m
       ∧ ∀ l w', rangeOrder l m → cacheOk w' →
           (FillStructWith (Some (VRef (zeroValue (TStruct n decl)))) l w').1
           = (Some (VRef (VStruct n decl vals)), Ok ()).
Proof.
  intros Hwf%wfValue_struct_inv Hplain Hnd Hok.
  destruct (structToMapFrom_plain (getTagNames (TStruct n decl)) 0 decl vals ∅
              Hwf Hplain Hnd) as (m & Hrun & Hperm).
  { intros j f Hf. simpl. by rewrite namesAt_getTagNames, Hf. }
  { intros f _. apply lookup_empty. }
  rewrite map_to_list_empty, app_nil_r in Hperm.
  exists m. split.
  { pose proof (cachedTagInfo_fst (TStruct n decl) w Hok) as Hinfo.
    unfold StructToMap. simpl.
    destruct (cachedTagInfo (TStruct n decl) w) as [info w1].
    simpl in Hinfo. by subst info. }
  intros l w' Hl Hok'. unfold rangeOrder in Hl. rewrite Hperm in Hl.
  pose proof (cachedTagInfo_fst (TStruct n decl) w' Hok') as Hinfo.
  rewrite zeroValue_struct. unfold FillStructWith. simpl.
  destruct (cachedTagInfo (TStruct n decl) w') as [info w1].
  simpl in Hinfo. subst info.
  assert (length vals = length decl) as Hlen by by eapply Forall2_length.
  pose proof (fillStructFrom_length (getTagNames (TStruct n decl))
                (TPtr (TStruct n decl)) decl l (zeroValue ∘ fieldType <$> decl))
    as Hlen'.
  destruct (fillStructFrom_encoded (getTagNames (TStruct n decl))
              (TPtr (TStruct n decl)) decl vals l
              (zeroValue ∘ fieldType <$> decl) Hwf Hplain) as [Hres Hget].
  { intros j f Hf. apply indexAt_known; [done..|].
    rewrite Forall_lookup in Hplain. by destruct (Hplain j f Hf) as (_ & ? & _). }
  { by rewrite length_fmap. }
  { intros p Hp. by rewrite <-Hl. }
  destruct (fillStructFrom _ _ _ _ _) as [vals' r]. simpl in *. subst r.
  do 4 f_equal. apply list_eq. intros j.
  destruct (decl !! j) as [f|] eqn:Hf.
  - rewrite (Hget j f Hf), decide_True; [done|].
    rewrite Hl, encodedPairs_keys by done.
    apply list_elem_of_fmap. exists f. split; [done|].
    by eapply list_elem_of_lookup_2.
  - apply lookup_ge_None in Hf.
    rewrite length_fmap in Hlen'.
    rewrite !(proj2 (lookup_ge_None _ _)); [done|lia..].
Qed.

Lemma roundtrip_plain_record_witness :
  (FillStructWith (Some (VRef (zeroValue Point)))
     [("y", Some (VInt 4)); ("x", Some (VInt 3))] initialWorld).1
  = (Some (VRef point34), Ok ()).
Proof.
  destruct (roundtrip_plain_record "main.Point" (structFields Point)
              [VInt 3; VInt 4] initialWorld) as (m & Hm & Hdecode).
  - reflexivity.
  - repeat constructor; done.
  - apply NoDup_cons. split; [by intros ?%list_elem_of_singleton|].
    apply NoDup_singleton.
  - apply cacheOk_initial.
  - apply Hdecode; [|apply cacheOk_initial].
    vm_compute in Hm. injection Hm as <-.
    unfold rangeOrder. apply permutations_Permutation. vm_compute.
    repeat constructor.
Defined.

(** * Further properties of the code *)

(** ** The descriptor, field by field *)

(** X1: the descriptor of a struct type names position [i] with column [c]
    exactly when the [i]-th declared field carries the gorm tag [c] and [c]
    is not empty: a field without a tag has no entry in [Names]. *)
Theorem getTagNames_Names_spec n decl i c :
  Names (getTagNames (TStruct n decl)) !! i = Some c ↔
  ∃ f, decl !! i = Some f ∧ fieldTag f = c ∧ c ≠ "".
Proof.
  unfold getTagNames. simpl. rewrite getTagNamesFrom_Names.
  destruct (decide (0 ≤ i)%nat); [|lia].
  replace (i - 0)%nat with i by lia. simpl.
  destruct (decl !! i) as [f|].
  - destruct (decide (fieldTag f = "")) as [Hf|Hf].
    + rewrite lookup_empty. split; [done|]. intros (g & [= <-] & <- & ?). done.
    + split.
      * intros [= <-]. by exists f.
      * by intros (g & [= <-] & <- & _).
  - rewrite lookup_empty. split; [done|]. by intros (? & ? & _).
Qed.

Lemma getTagNamesFrom_Index_spec fs :
  ∀ k info c i,
    Index (getTagNamesFrom k fs info) !! c = Some i ↔
    (c ≠ "" ∧ ∃ j f, i = (k + j)%nat ∧ fs !! j = Some f ∧ fieldTag f = c
                     ∧ ∀ j' g, (j < j')%nat → fs !! j' = Some g → fieldTag g ≠ c)
    ∨ ((c = "" ∨ ∀ g, g ∈ fs → fieldTag g ≠ c) ∧ Index info !! c = Some i).
Proof.
  induction fs as [|f fs IH]; intros k info c i.
  { simpl. split.
    - intros H. right. split; [|done]. right. by intros g ?%elem_of_nil.
    - intros [(_ & j & g & _ & ? & _)|[_ ?]]; done. }
  cbn [getTagNamesFrom]. cbv zeta.
  destruct (decide (fieldTag f = "")) as [Hf|Hf]; rewrite IH; clear IH.
  - split.
    + intros [(Hc & j & g & -> & Hg & Htag & Hlast)|[Hno Hi]].
      * left. split; [done|]. exists (S j), g. repeat split; [lia|done..|].
        intros [|j'] g' Hlt Hg'; [lia|]. simpl in Hg'. apply (Hlast j'); [lia|done].
      * right. split; [|done]. destruct Hno as [?|Hno]; [by left|].
        destruct (decide (c = "")); [by left|]. right.
        intros g [->|?]%elem_of_cons; [congruence|by apply Hno].
    + intros [(Hc & [|j] & g & -> & Hg & Htag & Hlast)|[Hno Hi]].
      * simpl in Hg. simplify_eq.
      * left. split; [done|]. exists j, g. repeat split; [lia|done..|].
        intros j' g' Hlt Hg'. apply (Hlast (S j')); [lia|done].
      * right. split; [|done]. destruct Hno as [?|Hno]; [by left|]. right.
        intros g Hg. apply Hno. by right.
  - split.
    + intros [(Hc & j & g & -> & Hg & Htag & Hlast)|[Hno Hi]].
      * left. split; [done|]. exists (S j), g. repeat split; [lia|done..|].
        intros [|j'] g' Hlt Hg'; [lia|]. simpl in Hg'. apply (Hlast j'); [lia|done].
      * simpl in Hi. destruct (decide (fieldTag f = c)) as [Heq|Hne].
        -- rewrite Heq, lookup_insert_eq in Hi. simplify_eq.
           left. split; [congruence|]. exists 0%nat, f. repeat split; [lia|done..|].
           intros [|j'] g' Hlt Hg'; [lia|]. simpl in Hg'.
           destruct Hno as [?|Hno]; [congruence|]. apply Hno.
           by eapply list_elem_of_lookup_2.
        -- rewrite lookup_insert_ne in Hi by done. right. split; [|done].
           destruct Hno as [?|Hno]; [by left|]. right.
           intros g [->|?]%elem_of_cons; [done|by apply Hno].
    + intros [(Hc & [|j] & g & -> & Hg & Htag & Hlast)|[Hno Hi]].
      * simpl in Hg. simplify_eq. right. split.
        -- right. intros g' Hg'. apply list_elem_of_lookup in Hg' as [j' Hj'].
           apply (Hlast (S j')); [lia|done].
        -- simpl. rewrite lookup_insert_eq. f_equal. lia.
      * left. split; [done|]. exists j, g. repeat split; [lia|done..|].
        intros j' g' Hlt Hg'. apply (Hlast (S j')); [lia|done].
      * right. simpl. destruct Hno as [->|Hno].
        -- split; [by left|]. by rewrite lookup_insert_ne.
        -- split; [right; intros g' Hg'; apply Hno; by right|].
           rewrite lookup_insert_ne; [done|]. apply Hno. left.
Qed.

(** X2: the descriptor sends column [c] to position [i] exactly when [c] is
    not empty, the [i]-th declared field carries the tag [c] and no later
    field does: of the fields that share a column, the last one declared is
    the one a decode writes. *)
Theorem getTagNames_Index_spec n decl c i :
  Index (getTagNames (TStruct n decl)) !! c = Some i ↔
  c ≠ "" ∧ (∃ f, decl !! i = Some f ∧ fieldTag f = c)
  ∧ ∀ j g, (i < j)%nat → decl !! j = Some g → fieldTag g ≠ c.
Proof.
  unfold getTagNames. simpl. rewrite getTagNamesFrom_Index_spec. split.
  - intros [(Hc & j & f & -> & Hf & Htag & Hlast)|[_ Hi]].
    + split; [done|]. split; [by exists f|]. done.
    + simpl in Hi. by rewrite lookup_empty in Hi.
  - intros (Hc & (f & Hf & Htag) & Hlast). left. split; [done|].
    exists i, f. done.
Qed.

(** ** The slices [decodeAsSliceOfStructs] accepts *)

(** X3: [decodeAsSliceOfStructs] accepts a non-nil argument exactly when it
    is a pointer to a slice of structs or of pointers to structs; it then
    returns the argument itself, the struct type, and whether the elements
    are pointers. Every other argument gives an error or a panic. *)
Theorem decodeAsSliceOfStructs_accepts v v' T p :
  decodeAsSliceOfStructs (Some v) = Ok (v', T, p) ↔
  v' = v ∧ Kind T = Struct ∧ typeOf v = TPtr (TSlice (if p then TPtr T else T)).
Proof.
  unfold decodeAsSliceOfStructs.
  destruct (typeOf v) as [| | | |t| |];
    try (split; [discriminate|by intros (_ & _ & ?)]).
  destruct t as [| | | | |el|];
    try (split; [discriminate|by intros (_ & _ & ?)]).
  destruct el as [| | | |el'| |]; simpl;
    try (split; [discriminate|intros (_ & HT & Hty); destruct p; simplify_eq; done]).
  - destruct el';
      try (split; [discriminate|intros (_ & HT & Hty); destruct p; simplify_eq; done]).
    simpl. split.
    + intros [= <- <- <-]. done.
    + intros (-> & HT & Hty). destruct p; simplify_eq; done.
  - split.
    + intros [= <- <- <-]. done.
    + intros (-> & HT & Hty). destruct p; simplify_eq; done.
Qed.

(** ** The row that encodes a record *)

Lemma structToMapFrom_step info i f decl v vals m :
  structToMapFrom info i (f :: decl) (v :: vals) m
  = if isNilPtr v then structToMapFrom info (S i) decl vals m
    else if isExported (fieldName f)
         then structToMapFrom info (S i) decl vals
                (<[namesAt info i := Some (derefField v)]> m)
         else Panic PanicUnexported.
Proof. by destruct v. Qed.

Lemma structToMapFrom_outcome info i decl vals m :
  length vals = length decl →
  (structToMapFrom info i decl vals m = Panic PanicUnexported
   ∧ ∃ j f v, decl !! j = Some f ∧ vals !! j = Some v
              ∧ isNilPtr v = false ∧ isExported (fieldName f) = false)
  ∨ ((∃ m', structToMapFrom info i decl vals m = Ok m')
     ∧ ∀ j f v, decl !! j = Some f → vals !! j = Some v →
         isNilPtr v = false → isExported (fieldName f) = true).
Proof.
  revert i vals m. induction decl as [|f decl IH]; intros i [|v vals] m Hlen;
    try discriminate.
  { right. split; [by eexists|]. by intros j ???. }
  rewrite structToMapFrom_step. simpl in Hlen.
  destruct (isNilPtr v) eqn:Hnil.
  - destruct (IH (S i) vals m) as [[Hp (j & g & x & ? & ? & ? & ?)]|[Hok Hall]]; [lia| |].
    + left. split; [done|]. by exists (S j), g, x.
    + right. split; [done|]. intros [|j] g x Hg Hx Hn; simpl in *.
      * simplify_eq. congruence.
      * by eapply Hall.
  - destruct (isExported (fieldName f)) eqn:Hexp.
    + destruct (IH (S i) vals (<[namesAt info i := Some (derefField v)]> m))
        as [[Hp (j & g & x & ? & ? & ? & ?)]|[Hok Hall]]; [lia| |].
      * left. split; [done|]. by exists (S j), g, x.
      * right. split; [done|]. intros [|j] g x Hg Hx Hn; simpl in *.
        -- by simplify_eq.
        -- by eapply Hall.
    + left. split; [done|]. by exists 0%nat, f, v.
Qed.

Lemma structToMapFrom_spec info decl :
  ∀ i vals m m' c a,
    structToMapFrom info i decl vals m = Ok m' →
    m' !! c = Some a ↔
    (∃ j f v, decl !! j = Some f ∧ vals !! j = Some v ∧ isNilPtr v = false
              ∧ namesAt info (i + j) = c ∧ a = Some (derefField v)
              ∧ ∀ j' g x, (j < j')%nat → decl !! j' = Some g → vals !! j' = Some x →
                  isNilPtr x = false → namesAt info (i + j') ≠ c)
    ∨ ((∀ j g x, decl !! j = Some g → vals !! j = Some x →
          isNilPtr x = false → namesAt info (i + j) ≠ c)
       ∧ m !! c = Some a).
Proof.
  induction decl as [|f decl IH]; intros i vals m m' c a Hrun.
  { simpl in Hrun. simplify_eq. split.
    - intros Hm. right. split; [|done]. by intros j ???.
    - intros [(j & ? & ? & ? & _)|[_ ?]]; done. }
  destruct vals as [|v vals].
  { simpl in Hrun. simplify_eq. split.
    - intros Hm. right. split; [|done]. by intros j ????.
    - intros [(j & ? & ? & _ & ? & _)|[_ ?]]; done. }
  rewrite structToMapFrom_step in Hrun.
  assert (∀ j, (i + S j)%nat = (S i + j)%nat) as Hplus by (intros; lia).
  destruct (isNilPtr v) eqn:Hnil.
  - rewrite (IH _ _ _ _ c a Hrun). clear IH Hrun. split.
    + intros [(j & g & x & Hg & Hx & Hn & Hname & -> & Hlast)|[Hno Hm]].
      * left. exists (S j), g, x. rewrite Hplus. repeat split; try done.
        intros [|j'] g' x' Hlt Hg' Hx' Hn'; [lia|]. rewrite Hplus.
        apply (Hlast j' g' x'); [lia|done..].
      * right. split; [|done]. intros [|j] g x Hg Hx Hn; simpl in *;
          [simplify_eq; congruence|]. rewrite Hplus. by apply (Hno j g x).
    + intros [([|j] & g & x & Hg & Hx & Hn & Hname & -> & Hlast)|[Hno Hm]].
      * simpl in *. simplify_eq. congruence.
      * left. exists j, g, x. rewrite Hplus in Hname. repeat split; try done.
        intros j' g' x' Hlt Hg' Hx' Hn'. rewrite <-Hplus.
        apply (Hlast (S j') g' x'); [lia|done..].
      * right. split; [|done]. intros j g x Hg Hx Hn. rewrite <-Hplus.
        by apply (Hno (S j) g x).
  - destruct (isExported (fieldName f)); [|done].
    rewrite (IH _ _ _ _ c a Hrun). clear IH Hrun. split.
    + intros [(j & g & x & Hg & Hx & Hn & Hname & -> & Hlast)|[Hno Hm]].
      * left. exists (S j), g, x. rewrite Hplus. repeat split; try done.
        intros [|j'] g' x' Hlt Hg' Hx' Hn'; [lia|]. rewrite Hplus.
        apply (Hlast j' g' x'); [lia|done..].
      * destruct (decide (namesAt info i = c)) as [Heq|Hne].
        -- rewrite Heq, lookup_insert_eq in Hm. simplify_eq.
           left. exists 0%nat, f, v. replace (i + 0)%nat with i by lia.
           repeat split; try done.
           intros [|j'] g' x' Hlt Hg' Hx' Hn'; [lia|]. rewrite Hplus.
           by apply (Hno j' g' x').
        -- rewrite lookup_insert_ne in Hm by done. right. split; [|done].
           intros [|j] g x Hg Hx Hn; simpl in *.
           ++ by replace (i + 0)%nat with i by lia.
           ++ rewrite Hplus. by apply (Hno j g x).
    + intros [([|j] & g & x & Hg & Hx & Hn & Hname & -> & Hlast)|[Hno Hm]].
      * simpl in *. simplify_eq. replace (i + 0)%nat with i in * by lia.
        right. split.
        -- intros j g' x' Hg' Hx' Hn'. rewrite <-Hplus.
           apply (Hlast (S j) g' x'); [lia|done..].
        -- by rewrite lookup_insert_eq.
      * left. exists j, g, x. rewrite Hplus in Hname. repeat split; try done.
        intros j' g' x' Hlt Hg' Hx' Hn'. rewrite <-Hplus.
        apply (Hlast (S j') g' x'); [lia|done..].
      * right. split.
        -- intros j g x Hg Hx Hn. rewrite <-Hplus. by apply (Hno (S j) g x).
        -- rewrite lookup_insert_ne; [done|].
           pose proof (Hno 0%nat f v eq_refl eq_refl Hnil) as H0.
           by replace (i + 0)%nat with i in H0 by lia.
Qed.

Lemma StructToMap_loop n decl vals obj w :
  obj = Some (VStruct n decl vals) ∨ obj = Some (VRef (VStruct n decl vals)) →
  (StructToMap obj w).1
  = structToMapFrom (cachedTagInfo (TStruct n decl) w).1 0 decl vals ∅.
Proof.
  intros [-> | ->]; unfold StructToMap; simpl;
    by destruct (cachedTagInfo (TStruct n decl) w).
Qed.

(** X4: the row [StructToMap] returns for a record, passed by value or by
    pointer, has the entry [c ↦ a] exactly when [a] is the value (a pointer
    dereferenced) of the last field that is not a nil pointer among those
    tagged [c]. So a nil pointer field contributes nothing, fields that share
    a column overwrite one another in declaration order, and fields without
    a tag are all filed under the empty column. *)
Theorem StructToMap_row_spec n decl vals obj w m c a :
  obj = Some (VStruct n decl vals) ∨ obj = Some (VRef (VStruct n decl vals)) →
  cacheOk w →
  (StructToMap obj w).1 = Ok m →
  m !! c = Some a ↔
  ∃ j f v, decl !! j = Some f ∧ vals !! j = Some v ∧ isNilPtr v = false
           ∧ fieldTag f = c ∧ a = Some (derefField v)
           ∧ ∀ j' g x, (j < j')%nat → decl !! j' = Some g → vals !! j' = Some x →
               isNilPtr x = false → fieldTag g ≠ c.
Proof.
  intros Hobj Hok Hrun.
  rewrite (StructToMap_loop n decl vals obj w Hobj), cachedTagInfo_fst in Hrun by done.
  rewrite (structToMapFrom_spec _ _ _ _ _ _ c a Hrun). split.
  - intros [(j & f & v & Hf & Hv & Hn & Hname & -> & Hlast)|[_ Hm]];
      [|by rewrite lookup_empty in Hm].
    simpl in Hname. rewrite namesAt_getTagNames, Hf in Hname.
    exists j, f, v. repeat split; try done.
    intros j' g x Hlt Hg Hx Hn'. specialize (Hlast j' g x Hlt Hg Hx Hn').
    simpl in Hlast. by rewrite namesAt_getTagNames, Hg in Hlast.
  - intros (j & f & v & Hf & Hv & Hn & Hname & -> & Hlast). left.
    exists j, f, v. simpl. rewrite namesAt_getTagNames, Hf.
    repeat split; try done.
    intros j' g x Hlt Hg Hx Hn'. rewrite namesAt_getTagNames, Hg.
    by apply (Hlast j' g x).
Qed.

Lemma StructToMap_row_spec_witness :
  ∃ m, (StructToMap (Some (mkUser 1 "Ann" (VNilPtr TString))) initialWorld).1 = Ok m
       ∧ m !! "name" = Some (Some (VString "Ann")).
Proof.
  eexists. split; [reflexivity|].
  apply (StructToMap_row_spec "main.User" (structFields User)
           [VInt 1; VString "Ann"; VNilPtr TString]
           (Some (mkUser 1 "Ann" (VNilPtr TString))) initialWorld);
    [by left|apply cacheOk_initial|reflexivity|].
  exists 1%nat, (mkField (exported "Name") "name" TString), (VString "Ann").
  repeat split.
  intros [|[|[|j']]] g x Hlt Hg Hx Hn; simpl in *; try lia; by simplify_eq.
Defined.

(** X5: [StructToMap] on a record, passed by value or by pointer, either
    panics, and then some field that is not a nil pointer is unexported
    ([Interface] refuses it), or returns a row, and then every field that is
    not a nil pointer is exported. It never returns an error for a record. *)
Theorem StructToMap_panics_on_unexported n decl vals obj w :
  obj = Some (VStruct n decl vals) ∨ obj = Some (VRef (VStruct n decl vals)) →
  length vals = length decl →
  ((StructToMap obj w).1 = Panic PanicUnexported
   ∧ ∃ j f v, decl !! j = Some f ∧ vals !! j = Some v
              ∧ isNilPtr v = false ∧ isExported (fieldName f) = false)
  ∨ ((∃ m, (StructToMap obj w).1 = Ok m)
     ∧ ∀ j f v, decl !! j = Some f → vals !! j = Some v →
         isNilPtr v = false → isExported (fieldName f) = true).
Proof.
  intros Hobj Hlen. rewrite (StructToMap_loop n decl vals obj w Hobj).
  by apply structToMapFrom_outcome.
Qed.

Lemma StructToMap_panics_on_unexported_witness :
  (StructToMap (Some hiddenValue) initialWorld).1 = Panic PanicUnexported.
Proof.
  destruct (StructToMap_panics_on_unexported "main.Hidden" (structFields Hidden)
              [VInt 1; VString "x"] (Some hiddenValue) initialWorld)
    as [[Hpanic _]|[_ Hall]]; [by left|reflexivity|exact Hpanic|].
  by specialize (Hall 1%nat (mkField (unexported "secret") "secret" TString)
                   (VString "x") eq_refl eq_refl eq_refl).
Defined.

(** ** The cache does not change what the codec returns *)

Lemma cachedTagInfo_fst_eq t w1 w2 :
  cacheOk w1 → cacheOk w2 → (cachedTagInfo t w1).1 = (cachedTagInfo t w2).1.
Proof. intros H1 H2. by rewrite !cachedTagInfo_fst. Qed.

Lemma StructToMap_cache_eq obj w1 w2 :
  cacheOk w1 → cacheOk w2 → (StructToMap obj w1).1 = (StructToMap obj w2).1.
Proof.
  intros H1 H2. unfold StructToMap. destruct obj as [v0|]; [|done].
  destruct (if decide (Kind (typeOf v0) = Ptr) then derefValue v0
            else (typeOf v0, Some v0)) as [t v].
  destruct (decide (Kind t = Struct)); [|done].
  pose proof (cachedTagInfo_fst_eq t w1 w2 H1 H2) as Heq.
  destruct (cachedTagInfo t w1) as [i1 w1'], (cachedTagInfo t w2) as [i2 w2'].
  simpl in Heq. subst i2. by destruct v as [[]|].
Qed.

Lemma FillStructWith_cache_eq entity dbRow w1 w2 :
  cacheOk w1 → cacheOk w2 →
  (FillStructWith entity dbRow w1).1 = (FillStructWith entity dbRow w2).1.
Proof.
  intros H1 H2. unfold FillStructWith. destruct entity as [v0|]; [|done].
  destruct (decide (Kind (typeOf v0) = Ptr)); [|done].
  destruct (derefValue v0) as [t v].
  destruct (decide (Kind t = Struct)); [|done].
  pose proof (cachedTagInfo_fst_eq t w1 w2 H1 H2) as Heq.
  destruct (cachedTagInfo t w1) as [i1 w1'], (cachedTagInfo t w2) as [i2 w2'].
  simpl in Heq. subst i2. destruct v as [[]|]; try done.
  - by destruct (fillStructFrom _ _ _ _ _).
  - by destruct dbRow.
Qed.

Lemma cacheOk_stable : stable cacheOk.
Proof. intros t w. apply cachedTagInfo_cacheOk. Qed.

Lemma fillSliceFrom_cache_eq T p dbRows :
  ∀ idx slice w1 w2,
    cacheOk w1 → cacheOk w2 →
    (fillSliceFrom T p idx slice dbRows w1).1
    = (fillSliceFrom T p idx slice dbRows w2).1.
Proof.
  induction dbRows as [|dbRow dbRows IH]; intros idx slice w1 w2 H1 H2; [done|].
  cbn [fillSliceFrom]. destruct (_ !! idx) as [x|]; [|done].
  pose proof (FillStructWith_cache_eq (Some (VRef x)) dbRow w1 w2 H1 H2) as Heq.
  pose proof (FillStructWith_stable cacheOk (Some (VRef x)) dbRow w1 cacheOk_stable H1) as H1'.
  pose proof (FillStructWith_stable cacheOk (Some (VRef x)) dbRow w2 cacheOk_stable H2) as H2'.
  destruct (FillStructWith (Some (VRef x)) dbRow w1) as [[e1 r1] w1'].
  destruct (FillStructWith (Some (VRef x)) dbRow w2) as [[e2 r2] w2'].
  simpl in *. simplify_eq.
  destruct r2; [|by destruct e2 as [[]|]..].
  destruct e2 as [[]|]; try done. by apply IH.
Qed.

Lemma FillSliceWith_cache_eq entities dbRows w1 w2 :
  cacheOk w1 → cacheOk w2 →
  (FillSliceWith entities dbRows w1).1 = (FillSliceWith entities dbRows w2).1.
Proof.
  intros H1 H2. unfold FillSliceWith.
  destruct (decodeAsSliceOfStructs entities) as [[[sliceRef t] p]| |]; [|done..].
  pose proof (cachedTagInfo_cacheOk t w1 H1) as H1'.
  pose proof (cachedTagInfo_cacheOk t w2 H2) as H2'.
  destruct (cachedTagInfo t w1) as [i1 w1'], (cachedTagInfo t w2) as [i2 w2'].
  destruct sliceRef as [| | | | |[]| |]; try done.
  pose proof (fillSliceFrom_cache_eq t p dbRows 0 items w1' w2' H1' H2') as Heq.
  destruct (fillSliceFrom _ _ _ _ _ w1') as [r1 ?].
  destruct (fillSliceFrom _ _ _ _ _ w2') as [r2 ?].
  simpl in Heq. subst r2. by destruct r1.
Qed.

(** X6: whatever calls of [StructToMap], [FillStructWith] and
    [FillSliceWith] were made before, from the empty cache, each of the three
    functions returns what it returns with the empty cache: the descriptors
    kept in [tagInfoCache] never change a result. *)
Theorem cache_is_transparent (ks : list pkgCall) :
  (∀ obj, (StructToMap obj (runCalls ks initialWorld)).1
          = (StructToMap obj initialWorld).1)
  ∧ (∀ entity dbRow,
       (FillStructWith entity dbRow (runCalls ks initialWorld)).1
       = (FillStructWith entity dbRow initialWorld).1)
  ∧ (∀ entities dbRows,
       (FillSliceWith entities dbRows (runCalls ks initialWorld)).1
       = (FillSliceWith entities dbRows initialWorld).1).
Proof.
  assert (cacheOk (runCalls ks initialWorld)) as Hok.
  { apply runCalls_stable; [apply cacheOk_stable|apply cacheOk_initial]. }
  split; [|split]; intros.
  - by apply StructToMap_cache_eq, cacheOk_initial.
  - by apply FillStructWith_cache_eq, cacheOk_initial.
  - by apply FillSliceWith_cache_eq, cacheOk_initial.
Qed.

(** ** Decoding the columns a record knows *)

Lemma FillStructWith_loop n decl vals l w :
  (FillStructWith (Some (VRef (VStruct n decl vals))) l w).1
  = let r := fillStructFrom (cachedTagInfo (TStruct n decl) w).1
               (TPtr (TStruct n decl)) decl vals l in
    (Some (VRef (VStruct n decl r.1)), r.2).
Proof.
  unfold FillStructWith. simpl.
  destruct (cachedTagInfo (TStruct n decl) w) as [info w'].
  by destruct (fillStructFrom _ _ _ _ _).
Qed.

Lemma fillStructFrom_known n decl T l :
  NoDup (fieldTag <$> decl) →
  ∀ cur,
    length cur = length decl →
    NoDup l.*1 →
    (∀ c a, (c, a) ∈ l → decodable decl c a) →
    (fillStructFrom (getTagNames (TStruct n decl)) T decl cur l).2 = Ok ()
    ∧ ∀ j f, decl !! j = Some f →
        (fillStructFrom (getTagNames (TStruct n decl)) T decl cur l).1 !! j
        = decodedField (list_to_map l) f (cur !! j).
Proof.
  intros Hnd. induction l as [|[c a] l IH]; intros cur Hlen Hl Hgood.
  { split; [done|]. intros j f Hf. unfold decodedField. simpl.
    by rewrite lookup_empty. }
  rewrite fmap_cons in Hl. apply NoDup_cons in Hl as [Hc Hl]. simpl in Hc.
  destruct (Hgood c a (list_elem_of_here _ _))
    as (i & g & v & -> & Hg & Htag & Hne & Hconv & Hexp).
  cbn [fillStructFrom].
  assert (indexAt (getTagNames (TStruct n decl)) c = i) as Hi.
  { rewrite <-Htag. apply indexAt_known; [done..|congruence]. }
  rewrite Hi, Hg.
  destruct (lookup_lt_is_Some_2 cur i) as [old Hold].
  { rewrite Hlen. by eapply lookup_lt_Some. }
  rewrite Hold, Hconv, Hexp.
  destruct (IH (<[i := Convert v (fieldType g)]> cur)) as [Hok Hget].
  { by rewrite length_insert. }
  { done. }
  { intros c' a' Hin. apply Hgood. by right. }
  split; [done|]. intros j f Hf. rewrite (Hget j f Hf).
  unfold decodedField. rewrite list_to_map_cons.
  destruct (decide (fieldTag f = c)) as [Heq|Hneq].
  - assert (j = i) as ->.
    { rewrite <-Hi, <-Heq. symmetry. apply indexAt_known; [done..|congruence]. }
    rewrite Heq, lookup_insert_eq, (not_elem_of_list_to_map_1 l c Hc).
    simplify_eq. apply list_lookup_insert_eq. by eapply lookup_lt_Some.
  - rewrite lookup_insert_ne by done.
    rewrite list_lookup_insert_ne; [done|]. intros ->. simplify_eq.
Qed.

(** X7: for a record whose fields carry pairwise distinct tags, and a row
    each of whose columns tags an exported field and holds a value
    convertible to the type of that field, [FillStructWith] returns nil in
    whatever order the row is visited, and afterwards every field whose
    column is in the row holds the row's value converted to the field's
    type, every other field what it held before. *)
Theorem FillStructWith_decodes_known_columns n decl vals (m : row) l w :
  cacheOk w →
  NoDup (fieldTag <$> decl) →
  length vals = length decl →
  rangeOrder l m →
  (∀ c a, m !! c = Some a → decodable decl c a) →
  ∃ vals',
    (FillStructWith (Some (VRef (VStruct n decl vals))) l w).1
    = (Some (VRef (VStruct n decl vals')), Ok ())
    ∧ length vals' = length vals
    ∧ ∀ j f, decl !! j = Some f →
        vals' !! j = decodedField m f (vals !! j).
Proof.
  intros Hok Hnd Hlen Hl Hgood. unfold rangeOrder in Hl.
  assert (NoDup l.*1) as Hkeys.
  { rewrite Hl. apply NoDup_fst_map_to_list. }
  assert (list_to_map l = m) as Hmap.
  { rewrite (list_to_map_proper l (map_to_list m)) by done.
    apply list_to_map_to_list. }
  destruct (fillStructFrom_known n decl (TPtr (TStruct n decl)) l Hnd vals Hlen Hkeys)
    as [Hres Hget].
  { intros c a Hin. apply Hgood. rewrite Hl in Hin.
    by apply elem_of_map_to_list in Hin. }
  rewrite FillStructWith_loop, cachedTagInfo_fst by done. cbv zeta.
  exists (fillStructFrom (getTagNames (TStruct n decl)) (TPtr (TStruct n decl))
            decl vals l).1.
  rewrite Hres. split; [done|]. split; [apply fillStructFrom_length|].
  intros j f Hf. by rewrite (Hget j f Hf), Hmap.
Qed.

Lemma FillStructWith_decodes_known_columns_witness :
  ∃ vals',
    (FillStructWith (Some (VRef (zeroValue User)))
       [("name", Some (VString "Ann")); ("id", Some (VInt 1))] initialWorld).1
    = (Some (VRef (VStruct "main.User" (structFields User) vals')), Ok ())
    ∧ length vals' = 3%nat
    ∧ ∀ j f, structFields User !! j = Some f →
        vals' !! j
        = decodedField annRow f ([VInt 0; VString ""; VNilPtr TString] !! j).
Proof.
  apply (FillStructWith_decodes_known_columns "main.User" (structFields User)
           [VInt 0; VString ""; VNilPtr TString] annRow
           [("name", Some (VString "Ann")); ("id", Some (VInt 1))] initialWorld).
  - apply cacheOk_initial.
  - apply NoDup_ListNoDup. repeat constructor; simpl; intuition discriminate.
  - reflexivity.
  - unfold rangeOrder. apply permutations_Permutation. vm_compute.
    repeat constructor.
  - intros c a Hm. apply elem_of_map_to_list in Hm. vm_compute in Hm.
    apply elem_of_cons in Hm as [[= -> ->]|Hm].
    { exists 0%nat, (mkField (exported "ID") "id" TInt), (VInt 1). by repeat split. }
    apply elem_of_cons in Hm as [[= -> ->]|Hm].
    { exists 1%nat, (mkField (exported "Name") "name" TString), (VString "Ann").
      by repeat split. }
    by apply elem_of_nil in Hm.
Defined.

Lemma fillStructFrom_app info T decl l1 l2 vals :
  fillStructFrom info T decl vals (l1 ++ l2)
  = match fillStructFrom info T decl vals l1 with
    | (vals1, Ok _) => fillStructFrom info T decl vals1 l2
    | other => other
    end.
Proof.
  revert vals. induction l1 as [|[c a] l1 IH]; intros vals; [done|].
  simpl. destruct (decl !! _) as [f|]; [|done]. destruct (vals !! _); [|done].
  destruct a as [a|]; [|done].
  destruct (ConvertibleTo _ _); [|done]. destruct (isExported _); [|done].
  apply IH.
Qed.

(** X8: [FillStructWith] decodes a row entry by entry, in place: decoding
    the entries [l1 ++ l2] into a record is decoding [l1] and then, when
    that returned nil, [l2] into the record it left; when [l1] fails, its
    error or panic is the result and the record keeps the fields written
    before the failing entry (there is no rollback). *)
Theorem FillStructWith_is_sequential n decl vals l1 l2 w :
  (FillStructWith (Some (VRef (VStruct n decl vals))) (l1 ++ l2) w).1
  = match (FillStructWith (Some (VRef (VStruct n decl vals))) l1 w).1 with
    | (entity1, Ok _) => (FillStructWith entity1 l2 w).1
    | aborted => aborted
    end.
Proof.
  rewrite !FillStructWith_loop. cbv zeta. rewrite fillStructFrom_app.
  destruct (fillStructFrom _ _ _ vals l1) as [vals1 [[]| |]]; simpl; [|done..].
  by rewrite FillStructWith_loop.
Qed.

(** ** Filling a slice *)

(** X9: [FillSliceWith] on a pointer to a slice of pointers to structs, with
    at least one row, always fails: the address of an element is a pointer
    to a pointer, which [FillStructWith] rejects as not pointing to a
    struct. Only slices of structs can be filled. *)
Theorem FillSliceWith_rejects_slices_of_pointers n decl items dbRow dbRows w :
  wfValue (VSlice (TPtr (TStruct n decl)) items) = true →
  (FillSliceWith (Some (VRef (VSlice (TPtr (TStruct n decl)) items)))
     (dbRow :: dbRows) w).1
  = Err (ErrFillStructNotStruct (TPtr (TPtr (TStruct n decl)))).
Proof.
  intros Hwf%wfValue_slice_inv. unfold FillSliceWith. simpl.
  destruct (cachedTagInfo (TStruct n decl) w) as [info w'].
  destruct items as [|x items]; cbn [fillSliceFrom]; simpl.
  - unfold FillStructWith. simpl. done.
  - inversion Hwf as [|?? [_ Hx] _]; subst.
    unfold FillStructWith. simpl. rewrite Hx. simpl. done.
Qed.

Lemma FillSliceWith_rejects_slices_of_pointers_witness :
  (FillSliceWith (Some (VRef (VSlice (TPtr User) []))) [[("id", Some (VInt 1))]]
     initialWorld).1
  = Err (ErrFillStructNotStruct (TPtr (TPtr User))).
Proof.
  apply (FillSliceWith_rejects_slices_of_pointers "main.User" (structFields User)
           [] [("id", Some (VInt 1))] [] initialWorld).
  reflexivity.
Defined.

Lemma fillSliceFrom_structs n decl dbRows :
  ∀ idx slice w slice' w',
    cacheOk w →
    (idx ≤ length slice)%nat →
    fillSliceFrom (TStruct n decl) false idx slice dbRows w = (Ok slice', w') →
    length slice' = (length slice `max` (idx + length dbRows))%nat
    ∧ (∀ j, (j < idx)%nat → slice' !! j = slice !! j)
    ∧ (∀ j, (idx + length dbRows ≤ j)%nat → slice' !! j = slice !! j)
    ∧ ∀ k dbRow, dbRows !! k = Some dbRow →
        ∃ x', slice' !! (idx + k)%nat = Some x'
              ∧ (FillStructWith
                   (Some (VRef (default (zeroValue (TStruct n decl))
                                  (slice !! (idx + k)%nat))))
                   dbRow initialWorld).1
                = (Some (VRef x'), Ok ()).
Proof.
  induction dbRows as [|dbRow dbRows IH]; intros idx slice w slice' w' Hok Hidx Hrun.
  { simpl in Hrun. simplify_eq. simpl. split; [lia|]. done. }
  cbn [fillSliceFrom] in Hrun.
  set (slice1 := if (length slice <=? idx)%nat
                 then (slice ++ [newElem (TStruct n decl) false])%list
                 else slice) in *.
  assert (length slice1 = (length slice `max` S idx)%nat) as Hlen1.
  { unfold slice1. destruct (Nat.leb_spec (length slice) idx).
    - rewrite length_app. simpl. lia.
    - lia. }
  assert (∀ j, j ≠ idx → slice1 !! j = slice !! j) as Hother.
  { intros j Hj. unfold slice1. destruct (Nat.leb_spec (length slice) idx); [|done].
    destruct (decide (j < length slice)%nat).
    - by rewrite lookup_app_l.
    - rewrite !(proj2 (lookup_ge_None _ _)); [done|lia|].
      rewrite length_app. simpl. lia. }
  assert (slice1 !! idx
          = Some (default (zeroValue (TStruct n decl)) (slice !! idx))) as Hx.
  { unfold slice1. destruct (Nat.leb_spec (length slice) idx).
    - rewrite lookup_app_r by lia. replace (idx - length slice)%nat with 0%nat by lia.
      rewrite (proj2 (lookup_ge_None slice idx)) by lia. done.
    - destruct (lookup_lt_is_Some_2 slice idx) as [x ->]; done. }
  rewrite Hx in Hrun.
  set (x := default (zeroValue (TStruct n decl)) (slice !! idx)) in *.
  pose proof (FillStructWith_cache_eq (Some (VRef x)) dbRow w initialWorld Hok
                cacheOk_initial) as Heq.
  pose proof (FillStructWith_stable cacheOk (Some (VRef x)) dbRow w cacheOk_stable Hok)
    as Hok1.
  destruct (FillStructWith (Some (VRef x)) dbRow w) as [[e r] w1].
  simpl in Heq, Hok1.
  destruct r as [[]| |]; [|by destruct e as [[]|]..].
  destruct e as [[| | | | |x'| |]|]; try done.
  destruct (IH (S idx) (<[idx := x']> slice1) w1 slice' w' Hok1) as (Hl & Hlow & Hhigh & Hrows);
    [rewrite length_insert; lia|done|].
  rewrite length_insert in Hl.
  split; [simpl; lia|]. split; [|split].
  - intros j Hj. rewrite Hlow by lia. rewrite list_lookup_insert_ne by lia.
    apply Hother. lia.
  - intros j Hj. simpl in Hj. rewrite Hhigh by lia.
    rewrite list_lookup_insert_ne by lia. apply Hother. lia.
  - intros [|k] row Hrow; simpl in Hrow.
    + simplify_eq. replace (idx + 0)%nat with idx by lia. exists x'. split; [|done].
      rewrite Hlow by lia. apply list_lookup_insert_eq. lia.
    + destruct (Hrows k row Hrow) as (y & Hy & Hfill).
      replace (idx + S k)%nat with (S idx + k)%nat by lia.
      exists y. split; [done|].
      rewrite list_lookup_insert_ne, Hother in Hfill by lia. done.
Qed.

(** X10: when [FillSliceWith] returns nil for a slice of structs, the slice
    it leaves has the length of the longer of the old slice and the rows,
    keeps the old elements beyond the rows (it is never truncated), and its
    [k]-th element is what [FillStructWith] makes of the [k]-th row decoded
    into the old [k]-th element, or into a zero record where the old slice
    was too short. *)
Theorem FillSliceWith_fills_pointwise n decl items dbRows w res :
  cacheOk w →
  (FillSliceWith (Some (VRef (VSlice (TStruct n decl) items))) dbRows w).1 = Ok res →
  ∃ slice',
    res = VRef (VSlice (TStruct n decl) slice')
    ∧ length slice' = (length items `max` length dbRows)%nat
    ∧ (∀ j, (length dbRows ≤ j)%nat → slice' !! j = items !! j)
    ∧ ∀ k dbRow, dbRows !! k = Some dbRow →
        ∃ x', slice' !! k = Some x'
              ∧ (FillStructWith
                   (Some (VRef (default (zeroValue (TStruct n decl)) (items !! k))))
                   dbRow initialWorld).1
                = (Some (VRef x'), Ok ()).
Proof.
  intros Hok Hrun. unfold FillSliceWith in Hrun. simpl in Hrun.
  pose proof (cachedTagInfo_cacheOk (TStruct n decl) w Hok) as Hok'.
  destruct (cachedTagInfo (TStruct n decl) w) as [info w0]. simpl in Hok'.
  destruct (fillSliceFrom (TStruct n decl) false 0 items dbRows w0)
    as [[slice'| |] w'] eqn:Hloop; simpl in Hrun; [|done..].
  simplify_eq. exists slice'. split; [done|].
  destruct (fillSliceFrom_structs n decl dbRows 0 items w0 slice' w' Hok')
    as (Hl & _ & Hhigh & Hrows); [lia|done|].
  split; [done|]. split; [done|]. done.
Qed.

Lemma FillSliceWith_fills_pointwise_witness :
  ∃ slice',
    VRef (VSlice User [mkUser 1 "" (VNilPtr TString); mkUser 2 "" (VNilPtr TString)])
    = VRef (VSlice User slice')
    ∧ length slice' = (0 `max` 2)%nat
    ∧ (∀ j, (2 ≤ j)%nat → slice' !! j = @nil value !! j)
    ∧ ∀ k dbRow,
        [[("id", Some (VInt 1))]; [("id", Some (VInt 2))]] !! k = Some dbRow →
        ∃ x', slice' !! k = Some x'
              ∧ (FillStructWith
                   (Some (VRef (default (zeroValue User) (@nil value !! k))))
                   dbRow initialWorld).1
                = (Some (VRef x'), Ok ()).
Proof.
  apply (FillSliceWith_fills_pointwise "main.User" (structFields User) []
           [[("id", Some (VInt 1))]; [("id", Some (VInt 2))]] initialWorld).
  - apply cacheOk_initial.
  - reflexivity.
Defined.

(** ** Insert, Delete and Update, call by call *)

Lemma logCalls_nil w : logCalls [] w = w.
Proof. destruct w. unfold logCalls. simpl. by rewrite app_nil_r. Qed.

Lemma logCalls_cons ev evs w : logCalls evs (logCall ev w) = logCalls (ev :: evs) w.
Proof. unfold logCalls, logCall. simpl. by rewrite <-app_assoc. Qed.

Lemma logCall_logCalls ev w : logCall ev w = logCalls [ev] w.
Proof. done. Qed.

Lemma logCalls_app evs1 evs2 w :
  logCalls evs2 (logCalls evs1 w) = logCalls (evs1 ++ evs2) w.
Proof. unfold logCalls. simpl. by rewrite <-app_assoc. Qed.

Ltac merge_logs :=
  rewrite ?logCall_logCalls, ?logCalls_app; simpl; rewrite <-?app_assoc; simpl.

Lemma insertEach_cons c item items w :
  insertEach c (item :: items) w
  = match createError (db c) (ioLog w) (tableName c) item with
    | Some e => (Err e, logCall (EvCreate (tableName c) item) w)
    | None => insertEach c items (logCall (EvCreate (tableName c) item) w)
    end.
Proof.
  cbn [insertEach]. unfold mbind, M_bind, bind, call. cbn [fst snd].
  by destruct (createError _ _ _ _).
Qed.

Lemma Delete_cons c id ids w :
  Delete c (id :: ids) w
  = match deleteError (db c) (ioLog w) (tableName c) id with
    | Some e => (Err e, logCall (EvDelete (tableName c) id) w)
    | None => Delete c ids (logCall (EvDelete (tableName c) id) w)
    end.
Proof.
  cbn [Delete]. unfold mbind, M_bind, bind, call. cbn [fst snd].
  by destruct (deleteError _ _ _ _).
Qed.

Lemma createAnswer_cons c item items w j it :
  createAnswer c (logCall (EvCreate (tableName c) item) w) items j it
  = createAnswer c w (item :: items) (S j) it.
Proof. unfold createAnswer. simpl. by rewrite <-app_assoc. Qed.

Lemma deleteAnswer_cons c id ids w j it :
  deleteAnswer c (logCall (EvDelete (tableName c) id) w) ids j it
  = deleteAnswer c w (id :: ids) (S j) it.
Proof. unfold deleteAnswer. simpl. by rewrite <-app_assoc. Qed.

Lemma insertEach_calls c items :
  ∀ w, ∃ n,
    (n ≤ length items)%nat
    ∧ (insertEach c items w).2
      = logCalls (EvCreate (tableName c) <$> take n items) w
    ∧ (((insertEach c items w).1 = Ok () ∧ n = length items
        ∧ ∀ j item, items !! j = Some item →
            createAnswer c w items j item = None)
       ∨ ∃ e item,
           (insertEach c items w).1 = Err e
           ∧ (0 < n)%nat ∧ items !! (n - 1)%nat = Some item
           ∧ createAnswer c w items (n - 1) item = Some e
           ∧ ∀ j item', (j < n - 1)%nat → items !! j = Some item' →
               createAnswer c w items j item' = None).
Proof.
  induction items as [|item items IH]; intros w.
  { exists 0%nat. simpl. split; [lia|]. split; [by rewrite logCalls_nil|].
    left. by repeat split. }
  rewrite insertEach_cons.
  assert (createAnswer c w (item :: items) 0 item
          = createError (db c) (ioLog w) (tableName c) item) as H0.
  { unfold createAnswer. simpl. by rewrite app_nil_r. }
  destruct (createError (db c) (ioLog w) (tableName c) item) as [e|] eqn:Herr.
  - exists 1%nat. simpl. split; [lia|]. split; [by rewrite ?take_0|].
    right. exists e, item. simpl. repeat split; [lia|done|].
    intros j item' Hj. lia.
  - destruct (IH (logCall (EvCreate (tableName c) item) w))
      as (n & Hn & Hw & Hres).
    exists (S n). split; [simpl; lia|]. split.
    { rewrite Hw. simpl. by rewrite logCalls_cons. }
    destruct Hres as [(Hok & -> & Hall)|(e & it & He & Hpos & Hit & Hans & Hall)].
    + left. split; [done|]. split; [done|].
      intros [|j] it Hit; simpl in Hit; [by simplify_eq|].
      rewrite <-createAnswer_cons. by apply Hall.
    + right. exists e, it. split; [done|]. split; [lia|].
      replace (S n - 1)%nat with (S (n - 1)) by lia.
      split; [done|]. split; [by rewrite <-createAnswer_cons|].
      intros [|j] it' Hj Hit'; simpl in Hit'; [by simplify_eq|].
      rewrite <-createAnswer_cons. apply Hall; [lia|done].
Qed.

(** X11: [Insert] makes one [Create] call per item, in the order of the
    arguments and on the client's table, and nothing else. Either every
    call was answered without an error, all the items were sent and the
    result is nil; or the last call made is the first one the database
    answered with an error, that error is the result, and the items after
    it were never sent. *)
Theorem Insert_creates_in_order c items w :
  ∃ n,
    (n ≤ length items)%nat
    ∧ (Insert c items w).2 = logCalls (EvCreate (tableName c) <$> take n items) w
    ∧ (((Insert c items w).1 = Ok () ∧ n = length items
        ∧ ∀ j item, items !! j = Some item →
            createAnswer c w items j item = None)
       ∨ ∃ e item,
           (Insert c items w).1 = Err e
           ∧ (0 < n)%nat ∧ items !! (n - 1)%nat = Some item
           ∧ createAnswer c w items (n - 1) item = Some e
           ∧ ∀ j item', (j < n - 1)%nat → items !! j = Some item' →
               createAnswer c w items j item' = None).
Proof.
  unfold Insert. destruct (decide (length items = 0%nat)) as [Hlen|_].
  - exists 0%nat. split; [lia|]. split; [by rewrite take_0, logCalls_nil|].
    left. split; [done|]. split; [by rewrite Hlen|].
    intros j item Hitem%lookup_lt_Some. lia.
  - apply insertEach_calls.
Qed.

(** X12: [Delete] makes one [Delete] call per identifier, in the order of
    the arguments and on the client's table, and nothing else. Either every
    call was answered without an error, all the identifiers were sent and
    the result is nil; or the last call made is the first one the database
    answered with an error, that error is the result, and the identifiers
    after it were never sent. *)
Theorem Delete_deletes_in_order c ids :
  ∀ w, ∃ n,
    (n ≤ length ids)%nat
    ∧ (Delete c ids w).2 = logCalls (EvDelete (tableName c) <$> take n ids) w
    ∧ (((Delete c ids w).1 = Ok () ∧ n = length ids
        ∧ ∀ j id, ids !! j = Some id → deleteAnswer c w ids j id = None)
       ∨ ∃ e id,
           (Delete c ids w).1 = Err e
           ∧ (0 < n)%nat ∧ ids !! (n - 1)%nat = Some id
           ∧ deleteAnswer c w ids (n - 1) id = Some e
           ∧ ∀ j id', (j < n - 1)%nat → ids !! j = Some id' →
               deleteAnswer c w ids j id' = None).
Proof.
  induction ids as [|id ids IH]; intros w.
  { exists 0%nat. simpl. split; [lia|]. split; [by rewrite logCalls_nil|].
    left. by repeat split. }
  rewrite Delete_cons.
  assert (deleteAnswer c w (id :: ids) 0 id
          = deleteError (db c) (ioLog w) (tableName c) id) as H0.
  { unfold deleteAnswer. simpl. by rewrite app_nil_r. }
  destruct (deleteError (db c) (ioLog w) (tableName c) id) as [e|] eqn:Herr.
  - exists 1%nat. simpl. split; [lia|]. split; [by rewrite ?take_0|].
    right. exists e, id. simpl. repeat split; [lia|done|].
    intros j id' Hj. lia.
  - destruct (IH (logCall (EvDelete (tableName c) id) w))
      as (n & Hn & Hw & Hres).
    exists (S n). split; [simpl; lia|]. split.
    { rewrite Hw. simpl. by rewrite logCalls_cons. }
    destruct Hres as [(Hok & -> & Hall)|(e & it & He & Hpos & Hit & Hans & Hall)].
    + left. split; [done|]. split; [done|].
      intros [|j] it Hit; simpl in Hit; [by simplify_eq|].
      rewrite <-deleteAnswer_cons. by apply Hall.
    + right. exists e, it. split; [done|]. split; [lia|].
      replace (S n - 1)%nat with (S (n - 1)) by lia.
      split; [done|]. split; [by rewrite <-deleteAnswer_cons|].
      intros [|j] it' Hj Hit'; simpl in Hit'; [by simplify_eq|].
      rewrite <-deleteAnswer_cons. apply Hall; [lia|done].
Qed.

Lemma Update_cons c item items w :
  Update c (item :: items) w
  = match StructToMap item w with
    | (Ok m, w1) =>
        let ev := EvUpdates (tableName c) item (delete "id" m) in
        match updatesError (db c) (ioLog w1) (tableName c) item (delete "id" m) with
        | Some e => (Err e, logCall ev w1)
        | None => Update c items (logCall ev w1)
        end
    | (Err e, w1) => (Err e, w1)
    | (Panic p, w1) => (Panic p, w1)
    end.
Proof.
  cbn [Update]. unfold mbind, M_bind, bind.
  destruct (StructToMap item w) as [[m| |] w1]; [|done..].
  unfold call. cbn [fst snd]. by destruct (updatesError _ _ _ _ _).
Qed.

(** X13: the calls [Update] makes are [Updates] calls for a prefix of the
    items, in order, each with the row [StructToMap] gives for the item less
    its key [id]. Either every item was sent and the result is nil, or the
    last call sent was answered with the error returned, or the first item
    not sent could not be encoded and its error or panic is the result. *)
Theorem Update_sends_encoded_rows c items :
  ∀ w, cacheOk w →
  ∃ evs,
    ioLog (Update c items w).2 = (ioLog w ++ evs)%list
    ∧ Forall2 (updateCallFor c) (take (length evs) items) evs
    ∧ (((Update c items w).1 = Ok () ∧ length evs = length items)
       ∨ (∃ e ev, (Update c items w).1 = Err e ∧ last evs = Some ev
                  ∧ updatesAnswer c (ioLog w ++ take (length evs - 1) evs) ev
                    = Some e)
       ∨ (∃ item, items !! length evs = Some item
                  ∧ match (StructToMap item initialWorld).1 with
                    | Ok _ => False
                    | Err e => (Update c items w).1 = Err e
                    | Panic p => (Update c items w).1 = Panic p
                    end)).
Proof.
  induction items as [|item items IH]; intros w Hok.
  { exists []. simpl. rewrite app_nil_r. split; [done|]. split; [constructor|].
    by left. }
  rewrite Update_cons.
  pose proof (StructToMap_cache_eq item w initialWorld Hok cacheOk_initial) as Heq.
  pose proof (StructToMap_ioLog item w) as Hlog.
  pose proof (StructToMap_stable cacheOk item w cacheOk_stable Hok) as Hok1.
  destruct (StructToMap item w) as [r w1]. simpl in Heq, Hlog, Hok1.
  destruct r as [m|e|p].
  2:{ exists []. simpl. rewrite app_nil_r. split; [done|]. split; [constructor|].
      right. right. exists item. split; [done|]. by rewrite <-Heq. }
  2:{ exists []. simpl. rewrite app_nil_r. split; [done|]. split; [constructor|].
      right. right. exists item. split; [done|]. by rewrite <-Heq. }
  cbv zeta. rewrite Hlog.
  set (ev := EvUpdates (tableName c) item (delete "id" m)).
  assert (updateCallFor c item ev) as Hev by by exists m.
  destruct (updatesError (db c) (ioLog w) (tableName c) item (delete "id" m))
    as [e|] eqn:Herr.
  - exists [ev]. simpl. rewrite Hlog. split; [done|]. split.
    { rewrite take_0. by repeat constructor. }
    right. left. exists e, ev. by rewrite app_nil_r.
  - destruct (IH (logCall ev w1)) as (evs & Hevs & Hall & Hres); [done|].
    exists (ev :: evs). split.
    { rewrite Hevs. simpl. by rewrite Hlog, <-app_assoc. }
    split; [simpl; by constructor|].
    destruct Hres as [[Hres Hlen]|[(e & ev' & Hres & Hlast & Hans)|(it & Hit & Hres)]].
    + left. split; [done|]. simpl. by rewrite Hlen.
    + right. left. exists e, ev'. split; [done|].
      destruct evs as [|ev0 evs]; [done|]. split; [done|].
      simpl in Hans. rewrite Hlog, <-app_assoc in Hans. simpl.
      by rewrite Nat.sub_0_r in *.
    + right. right. exists it. split; [done|]. done.
Qed.

Lemma Update_sends_encoded_rows_witness :
  ∃ evs,
    ioLog (Update (mkClient "users" (quietDB [] (λ _ x, x)))
             [Some (mkUser 1 "Ann" (VNilPtr TString))] initialWorld).2
    = ([] ++ evs)%list
    ∧ Forall2 (updateCallFor (mkClient "users" (quietDB [] (λ _ x, x))))
        (take (length evs) [Some (mkUser 1 "Ann" (VNilPtr TString))]) evs
    ∧ length evs = 1%nat.
Proof.
  destruct (Update_sends_encoded_rows (mkClient "users" (quietDB [] (λ _ x, x)))
              [Some (mkUser 1 "Ann" (VNilPtr TString))] initialWorld
              cacheOk_initial) as (evs & Hlog & Hall & Hres).
  exists evs. split; [exact Hlog|]. split; [exact Hall|].
  vm_compute in Hlog. destruct evs as [|ev [|ev' evs]]; try discriminate.
  reflexivity.
Defined.

(** ** The cursor of a chunked query *)

Lemma queryChunksFrom_nil c parser T p slice idx w :
  queryChunksFrom c parser T p slice idx [] w
  = let w1 := logCall EvNext w in
    if decide (0 < idx)%nat then
      match slice with
      | Some s =>
          match ForEachChunk parser (ioLog w1) (take idx s) with
          | Some e => (Err e, logCall (EvForEachChunk (take idx s)) w1)
          | None => (Ok (), logCall (EvForEachChunk (take idx s)) w1)
          end
      | None => (Panic PanicInvalidValue, w1)
      end
    else (Ok (), w1).
Proof.
  cbn [queryChunksFrom]. unfold mbind, M_bind, bind. unfold call at 1.
  cbn [fst snd]. cbv zeta. destruct (decide (0 < idx)%nat); [|done].
  destruct slice as [s|]; [|done].
  unfold runForEachChunk, mbind, M_bind, bind, call. cbn [fst snd].
  by destruct (ForEachChunk _ _ _).
Qed.

Lemma queryChunksFrom_cons c parser T p slice idx r rows w :
  queryChunksFrom c parser T p slice idx (r :: rows) w
  = let w1 := logCall EvNext w in
    match slice with
    | None => (Panic PanicInvalidValue, w1)
    | Some s =>
        match withRoom T p s idx !! idx with
        | None => (Panic PanicFieldIndex, w1)
        | Some x =>
            let s' := <[idx := (scanRows (db c) (ioLog w1) r x).1]>
                        (withRoom T p s idx) in
            let w2 := logCall (EvScanRows idx) w1 in
            match (scanRows (db c) (ioLog w1) r x).2 with
            | Some e => (Err e, w2)
            | None =>
                if decide (Z.of_nat idx = (ChunkSize parser - 1)%Z) then
                  match ForEachChunk parser (ioLog w2) s' with
                  | Some e => (Err e, logCall (EvForEachChunk s') w2)
                  | None =>
                      queryChunksFrom c parser T p (Some s') 1 rows
                        (logCall (EvForEachChunk s') w2)
                  end
                else queryChunksFrom c parser T p (Some s') (S idx) rows w2
            end
        end
    end.
Proof.
  cbn [queryChunksFrom]. unfold mbind, M_bind, bind. unfold call at 1.
  cbn [fst snd]. cbv zeta. destruct slice as [s|]; [|done].
  fold (withRoom T p s idx). destruct (withRoom T p s idx !! idx) as [x|]; [|done].
  unfold call at 1. cbn [fst snd].
  destruct (scanRows (db c) (ioLog (logCall EvNext w)) r x) as [x' [e|]];
    cbn [check fail ret fst snd]; [done|].
  destruct (decide _); [|done].
  unfold runForEachChunk, mbind, M_bind, bind, call. cbn [fst snd].
  by destruct (ForEachChunk _ _ _).
Qed.

Lemma queryChunksFrom_calls c parser T p rows :
  ∀ slice idx w, ∃ evs,
    (queryChunksFrom c parser T p slice idx rows w).2 = logCalls evs w
    ∧ Forall isLoopCall evs.
Proof.
  induction rows as [|r rows IH]; intros slice idx w.
  { rewrite queryChunksFrom_nil. cbv zeta.
    destruct (decide (0 < idx)%nat).
    - destruct slice as [s|].
      + exists [EvNext; EvForEachChunk (take idx s)].
        split; [|by repeat constructor].
        destruct (ForEachChunk _ _ _); by merge_logs.
      + exists [EvNext]. split; [|by repeat constructor].
        by merge_logs.
    - exists [EvNext]. split; [|by repeat constructor].
      by merge_logs. }
  rewrite queryChunksFrom_cons. cbv zeta.
  destruct slice as [s|].
  2:{ exists [EvNext]. split; [|by repeat constructor].
      by merge_logs. }
  destruct (withRoom T p s idx !! idx) as [x|].
  2:{ exists [EvNext]. split; [|by repeat constructor].
      by merge_logs. }
  destruct (scanRows _ _ _ _).2 as [e|].
  { exists [EvNext; EvScanRows idx]. split; [|by repeat constructor].
    by merge_logs. }
  destruct (decide _).
  - destruct (ForEachChunk _ _ _) as [e'|].
    + eexists [EvNext; EvScanRows idx; EvForEachChunk _].
      split; [|by repeat constructor].
      by merge_logs.
    + match goal with |- context [queryChunksFrom _ _ _ _ ?sl ?i rows ?w2] =>
        destruct (IH sl i w2) as (evs & -> & Hall) end.
      eexists (EvNext :: EvScanRows idx :: EvForEachChunk _ :: evs).
      split; [by merge_logs|]. by repeat constructor.
  - match goal with |- context [queryChunksFrom _ _ _ _ ?sl ?i rows ?w2] =>
      destruct (IH sl i w2) as (evs & -> & Hall) end.
    exists (EvNext :: EvScanRows idx :: evs).
    split; [by merge_logs|]. by repeat constructor.
Qed.

(** X14: [QueryChunks] first runs the query, then opens the cursor. When the
    query fails nothing else is called; when the cursor cannot be opened
    nothing else is called and nothing is closed. Once the cursor is open,
    every call that follows is a [Next], a [ScanRows] or a callback, and the
    very last call is [Close], whatever the result: nil, an error of a scan,
    of the callback or of the shape check, or a panic. *)
Theorem QueryChunks_cursor_lifecycle c parser w :
  match rawError (db c) (ioLog w) (Query parser) (Params parser) with
  | Some e =>
      QueryChunks c parser w
      = (Err e, logCalls [EvRaw (Query parser) (Params parser)] w)
  | None =>
      match rowsResult (db c)
              (ioLog w ++ [EvRaw (Query parser) (Params parser)]) with
      | inl e =>
          QueryChunks c parser w
          = (Err e, logCalls [EvRaw (Query parser) (Params parser); EvRows] w)
      | inr rows =>
          ∃ evs,
            (QueryChunks c parser w).2
            = logCalls ([EvRaw (Query parser) (Params parser); EvRows]
                          ++ evs ++ [EvClose]) w
            ∧ Forall isLoopCall evs
      end
  end.
Proof.
  destruct (rawError _ _ _ _) as [e|] eqn:Hraw.
  { unfold QueryChunks, mbind, M_bind, bind, call. cbn [fst snd].
    rewrite Hraw. by merge_logs. }
  destruct (rowsResult _ _) as [e|rows] eqn:Hrows.
  { unfold QueryChunks, mbind, M_bind, bind, call. cbn [fst snd].
    rewrite Hraw. cbn [check ret fst snd logCall ioLog]. rewrite Hrows.
    unfold fail. by merge_logs. }
  unfold QueryChunks, mbind, M_bind, bind, call. cbn [fst snd].
  rewrite Hraw. cbn [check ret fst snd logCall ioLog]. rewrite Hrows.
  unfold deferring, lift.
  destruct (decodeAsSliceOfStructs (Chunk parser)) as [[[sliceRef T] p]|e|pn].
  - match goal with |- context [queryChunksFrom _ _ _ _ ?sl ?i rows ?w2] =>
      destruct (queryChunksFrom_calls c parser T p rows sl i w2) as (evs & Hw & Hall);
      destruct (queryChunksFrom c parser T p sl i rows w2) as [r w'] end.
    simpl in Hw. subst w'. exists evs. split; [|done]. cbn [fst snd].
    unfold logCalls, logCall. simpl. by rewrite <-!app_assoc.
  - exists []. split; [|constructor]. cbn [fst snd]. by merge_logs.
  - exists []. split; [|constructor]. cbn [fst snd]. by merge_logs.
Qed.

(** ** The buffers the callback sees *)

Lemma rowsScanned_logCall ev w :
  rowsScanned (ioLog (logCall ev w))
  = (rowsScanned (ioLog w) + if isScanCall ev then 1 else 0)%nat.
Proof.
  unfold rowsScanned, logCall. simpl. rewrite List.filter_app, length_app.
  simpl. by destruct (isScanCall ev).
Qed.

Lemma withRoom_full T p s idx :
  length s = idx → withRoom T p s idx = (s ++ [newElem T p])%list.
Proof. intros <-. unfold withRoom. by rewrite Nat.leb_refl. Qed.

Lemma withRoom_length T p s idx :
  (idx ≤ length s)%nat → length (withRoom T p s idx) = (length s `max` S idx)%nat.
Proof.
  intros Hidx. unfold withRoom. destruct (Nat.leb_spec (length s) idx).
  - rewrite length_app. simpl. lia.
  - lia.
Qed.

Lemma withRoom_drop T p s idx k :
  (idx ≤ length s)%nat → (idx < k)%nat → drop k (withRoom T p s idx) = drop k s.
Proof.
  intros Hidx Hk. unfold withRoom. destruct (Nat.leb_spec (length s) idx); [|done].
  rewrite !drop_ge; [done|lia|]. rewrite length_app. simpl. lia.
Qed.

Lemma queryChunksFrom_failing_callback c parser T p e rows :
  (∀ log r x, (scanRows (db c) log r x).2 = None) →
  (∀ log s, ForEachChunk parser log s = Some e) →
  ∀ s idx w,
    length s = idx →
    (0 < idx + length rows)%nat →
    (Z.of_nat idx < ChunkSize parser ∨ ChunkSize parser ≤ 0)%Z →
    ∃ w' b,
      queryChunksFrom c parser T p (Some s) idx rows w = (Err e, w')
      ∧ chunksSeen (ioLog w') = (chunksSeen (ioLog w) ++ [b])%list
      ∧ length b = firstChunk (ChunkSize parser) (idx + length rows)
      ∧ (rowsScanned (ioLog w') + idx
         = rowsScanned (ioLog w)
           + firstChunk (ChunkSize parser) (idx + length rows))%nat.
Proof.
  intros Hscan Hcb.
  induction rows as [|r rows IH]; intros s idx w Hlen Hpos Hk.
  { rewrite queryChunksFrom_nil. cbv zeta. simpl in Hpos.
    destruct (decide (0 < idx)%nat); [|lia]. rewrite Hcb.
    eexists _, (take idx s). split; [done|].
    rewrite !chunksSeen_logCall, !rowsScanned_logCall. simpl.
    rewrite !app_nil_r.
    unfold firstChunk. destruct (decide _); [lia|].
    rewrite length_take. split; [done|]. split; lia. }
  rewrite queryChunksFrom_cons. cbv zeta.
  rewrite (withRoom_full T p s idx Hlen), lookup_app_r by lia.
  rewrite Hlen, Nat.sub_diag. cbn [lookup list_lookup]. rewrite Hscan.
  set (s' := <[idx := _]> _).
  assert (length s' = S idx) as Hlen'.
  { unfold s'. rewrite length_insert, length_app. simpl. lia. }
  destruct (decide _) as [Hlast|Hnot].
  - rewrite Hcb. eexists _, s'. split; [done|].
    rewrite !chunksSeen_logCall, !rowsScanned_logCall. simpl.
    rewrite !app_nil_r.
    unfold firstChunk. destruct (decide _); [|lia].
    split; [done|]. split; lia.
  - destruct (IH s' (S idx) (logCall (EvScanRows idx) (logCall EvNext w)))
      as (w' & b & Hrun & Hseen & Hb & Hn); [done|lia|lia|].
    assert (firstChunk (ChunkSize parser) (S idx + length rows)
            = firstChunk (ChunkSize parser) (idx + length (r :: rows))) as Heq.
    { f_equal. simpl. lia. }
    rewrite Heq in Hb, Hn.
    exists w', b. split; [done|].
    rewrite Hseen, !chunksSeen_logCall, !app_nil_r.
    rewrite !rowsScanned_logCall in Hn. cbn [isScanCall] in Hn.
    split; [done|]. split; [done|]. lia.
Qed.

(** X15: with a database that never fails, a cursor that yields at least
    one row and a callback that always fails with [e], [QueryChunks] returns
    [e] after a single run of the callback: no row is scanned beyond the
    first chunk (or beyond the last row, when the rows do not fill a chunk),
    and the cursor is closed last. *)
Theorem QueryChunks_failing_callback_stops
    (c : Client) (parser : ChunkParser) (rows : list row)
    (n : string) (decl : list (fieldDecl gotype)) (e : error) :
  (∀ log q ps, rawError (db c) log q ps = None) →
  (∀ log, rowsResult (db c) log = inr rows) →
  (∀ log r x, (scanRows (db c) log r x).2 = None) →
  (∀ log s, ForEachChunk parser log s = Some e) →
  Chunk parser = Some (VRef (VSlice (TStruct n decl) [])) →
  rows ≠ [] →
  (QueryChunks c parser initialWorld).1 = Err e
  ∧ chunkLengths c parser = [firstChunk (ChunkSize parser) (length rows)]
  ∧ rowsScanned (ioLog (QueryChunks c parser initialWorld).2)
    = firstChunk (ChunkSize parser) (length rows)
  ∧ last (ioLog (QueryChunks c parser initialWorld).2) = Some EvClose.
Proof.
  intros Hraw Hrows Hscan Hcb Hchunk Hne. unfold chunkLengths.
  rewrite (QueryChunks_unfold c parser initialWorld rows
             (VRef (VSlice (TStruct n decl) [])) (TStruct n decl) false)
    by (rewrite ?Hchunk; done).
  destruct (queryChunksFrom_failing_callback c parser (TStruct n decl) false e rows
              Hscan Hcb [] 0%nat
              (logCall EvRows
                 (logCall (EvRaw (Query parser) (Params parser)) initialWorld)))
    as (w' & b & Hrun & Hseen & Hb & Hn); [done|destruct rows; simpl; [done|lia]| |].
  { destruct (decide (0 < ChunkSize parser)%Z); [left|right]; lia. }
  cbn zeta. rewrite Hrun. cbn [fst snd]. split; [done|].
  rewrite chunksSeen_logCall, rowsScanned_logCall, Hseen. simpl.
  rewrite Hb. split; [done|]. split.
  - rewrite !rowsScanned_logCall in Hn. simpl in Hn. lia.
  - unfold logCall. simpl. apply last_snoc.
Qed.

Lemma QueryChunks_failing_callback_stops_witness :
  (QueryChunks (mkClient "users" (quietDB [∅; ∅; ∅; ∅; ∅] (λ _ x, x)))
     (failingChunks 2 (ErrExternal "stop")) initialWorld).1
  = Err (ErrExternal "stop")
  ∧ chunkLengths (mkClient "users" (quietDB [∅; ∅; ∅; ∅; ∅] (λ _ x, x)))
      (failingChunks 2 (ErrExternal "stop")) = [2%nat]
  ∧ rowsScanned
      (ioLog (QueryChunks (mkClient "users" (quietDB [∅; ∅; ∅; ∅; ∅] (λ _ x, x)))
                (failingChunks 2 (ErrExternal "stop")) initialWorld).2) = 2%nat
  ∧ last (ioLog (QueryChunks
                   (mkClient "users" (quietDB [∅; ∅; ∅; ∅; ∅] (λ _ x, x)))
                   (failingChunks 2 (ErrExternal "stop")) initialWorld).2)
    = Some EvClose.
Proof.
  apply (QueryChunks_failing_callback_stops
           (mkClient "users" (quietDB [∅; ∅; ∅; ∅; ∅] (λ _ x, x)))
           (failingChunks 2 (ErrExternal "stop")) [∅; ∅; ∅; ∅; ∅]
           "main.User" (structFields User) (ErrExternal "stop"));
    try reflexivity; discriminate.
Defined.




Lemma queryChunksFrom_reused_buffer c parser T p rows :
  neverFails c parser →
  ∀ s idx w,
    (idx ≤ length s)%nat → rows ≠ [] →
    Z.of_nat (idx + length rows) = ChunkSize parser →
    ∃ w' b1 b2,
      queryChunksFrom c parser T p (Some s) idx rows w = (Ok (), w')
      ∧ chunksSeen (ioLog w') = (chunksSeen (ioLog w) ++ [b1; b2])%list
      ∧ length b1 = (length s `max` (idx + length rows))%nat
      ∧ drop (idx + length rows) b1 = drop (idx + length rows) s
      ∧ length b2 = 1%nat.
Proof.
  intros Hquiet. pose proof Hquiet as (_ & Hscan & Hcb).
  induction rows as [|r rows IH]; intros s idx w Hidx Hne Hk; [done|].
  rewrite queryChunksFrom_cons. cbv zeta.
  destruct (lookup_lt_is_Some_2 (withRoom T p s idx) idx) as [x Hx].
  { rewrite withRoom_length by done. lia. }
  rewrite Hx, Hscan.
  set (s' := <[idx := _]> _).
  assert (length s' = (length s `max` S idx)%nat) as Hlen'.
  { unfold s'. by rewrite length_insert, withRoom_length. }
  assert (∀ k, (idx < k)%nat → drop k s' = drop k s) as Hdrop.
  { intros k Hlt. unfold s'. rewrite drop_insert_lt by lia.
    by apply withRoom_drop. }
  simpl in Hk.
  destruct rows as [|r' rows].
  - destruct (decide _) as [_|Hn]; [|simpl in *; lia].
    rewrite Hcb, queryChunksFrom_nil. cbv zeta.
    destruct (decide (0 < 1)%nat); [|lia]. rewrite Hcb.
    eexists _, s', (take 1 s'). split; [done|].
    rewrite !chunksSeen_logCall. simpl. rewrite !app_nil_r, <-app_assoc.
    split; [done|]. split; [lia|]. split; [apply Hdrop; lia|].
    rewrite length_take. lia.
  - destruct (decide _) as [Hn|_]; [simpl in *; lia|].
    destruct (IH s' (S idx) (logCall (EvScanRows idx) (logCall EvNext w)))
      as (w' & b1 & b2 & Hrun & Hseen & Hb1 & Hd & Hb2);
      [lia|done|simpl in *; lia|].
    exists w', b1, b2. split; [done|].
    rewrite Hseen, !chunksSeen_logCall, !app_nil_r.
    split; [done|].
    replace (idx + length (r :: r' :: rows))%nat
      with (S idx + length (r' :: rows))%nat by (simpl; lia).
    split; [lia|]. split; [|done].
    rewrite Hd. apply Hdrop. lia.
Qed.

(** X17: when [Chunk] points to a slice that already holds [items] and the
    cursor yields exactly [ChunkSize] rows, the callback is run twice: first
    with a buffer as long as the longer of [items] and the rows, whose
    elements beyond the rows are the old ones (a full chunk is not cut to
    the chunk size), then with a buffer of length 1. *)
Theorem QueryChunks_reused_buffer_keeps_stale_tail
    (c : Client) (parser : ChunkParser) (rows : list row)
    (n : string) (decl : list (fieldDecl gotype)) (items : list value) :
  neverFails c parser →
  (∀ log, rowsResult (db c) log = inr rows) →
  Chunk parser = Some (VRef (VSlice (TStruct n decl) items)) →
  rows ≠ [] →
  Z.of_nat (length rows) = ChunkSize parser →
  ∃ b1 b2,
    chunksSeen (ioLog (QueryChunks c parser initialWorld).2) = [b1; b2]
    ∧ length b1 = (length items `max` length rows)%nat
    ∧ drop (length rows) b1 = drop (length rows) items
    ∧ length b2 = 1%nat.
Proof.
  intros Hquiet Hrows Hchunk Hne Hk.
  pose proof Hquiet as (Hraw & _ & _).
  rewrite (QueryChunks_unfold c parser initialWorld rows
             (VRef (VSlice (TStruct n decl) items)) (TStruct n decl) false)
    by (rewrite ?Hchunk; done).
  destruct (queryChunksFrom_reused_buffer c parser (TStruct n decl) false rows
              Hquiet items 0%nat
              (logCall EvRows
                 (logCall (EvRaw (Query parser) (Params parser)) initialWorld)))
    as (w' & b1 & b2 & Hrun & Hseen & Hb1 & Hd & Hb2); [lia|done|done|].
  cbn zeta. rewrite Hrun. cbn [fst snd]. exists b1, b2.
  rewrite chunksSeen_logCall, Hseen. simpl. done.
Qed.

Lemma QueryChunks_reused_buffer_witness :
  ∃ b1 b2,
    chunksSeen
      (ioLog (QueryChunks (mkClient "users" (quietDB [∅; ∅] (λ _ x, x)))
                (presizedChunks 2 (replicate 5 (zeroValue User))) initialWorld).2)
    = [b1; b2]
    ∧ length b1 = (5 `max` 2)%nat
    ∧ drop 2 b1 = drop 2 (replicate 5 (zeroValue User))
    ∧ length b2 = 1%nat.
Proof.
  apply (QueryChunks_reused_buffer_keeps_stale_tail
           (mkClient "users" (quietDB [∅; ∅] (λ _ x, x)))
           (presizedChunks 2 (replicate 5 (zeroValue User))) [∅; ∅]
           "main.User" (structFields User) (replicate 5 (zeroValue User))).
  - repeat split.
  - reflexivity.
  - reflexivity.
  - discriminate.
  - reflexivity.
Defined.






